(** * PrideLondon-RN: event decoding, recurrence expansion and tag filters

    A shallow embedding of [src/data/event.js] (the [Event] record, its
    decoder and [expandRecurringEvents]), of the tag filter of
    [src/screens/FilterModal/component.js] and of [SegmentedControl]. *)

From Stdlib Require Import ZArith Floats Ascii String List Bool Lia
  DecimalString.
From stdpp Require Import base option list strings gmap.

Set Warnings "-register-all,-clear-no-such-hyp".

Local Open Scope string_scope.
Local Open Scope list_scope.

(** ** JavaScript values used by the data layer *)

(** A JavaScript [number] is an IEEE-754 double. *)
Definition number : Type := float.

(** Flow's [Maybe<A>] of [lib/maybe]: a value that may be absent. *)
Definition Maybe (A : Type) : Type := option A.

(** ** [src/data/event.js]: the data model *)

(** [EventCategoryName] is a union of eleven string literals: at run time
    a category is a string, and the union is the list below. *)
Definition EventCategoryName : Type := string.

(** [export const eventCategoryNames = [...]] *)
Definition eventCategoryNames : list string :=
  [ "Cabaret and Variety"; "Community"; "Talks and Debates";
    "Film and Screenings"; "Plays and Theatre"; "Social and Networking";
    "Nightlife"; "Exhibition and Tours"; "Sports and Activities";
    "Health"; "Music" ].

(** Modelled from the spec: [./field-ref] is not among the sources.  The
    spec (external interfaces) describes a reference as a nested object
    with its own [sys] part, decoded structurally and never interpreted;
    the fixture of the event screen shows [sys.id]. *)
Record FieldRefSys : Type := { ref_id : string }.
Record FieldRef : Type := { sys : FieldRefSys }.

Record Location : Type := { lat : number; lon : number }.

Record EventFields : Type := {
  name : string;
  eventCategories : list EventCategoryName;
  audience : list string;
  startTime : string;
  endTime : string;
  location : Location;
  addressLine1 : Maybe string;
  addressLine2 : Maybe string;
  city : Maybe string;
  postcode : Maybe string;
  locationName : string;
  eventPriceLow : number;
  eventPriceHigh : number;
  accessibilityOptions : list string;
  eventDescription : string;
  accessibilityDetails : Maybe string;
  email : Maybe string;
  phone : Maybe string;
  ticketingUrl : Maybe string;
  venueDetails : list string;
  individualEventPicture : FieldRef;
  eventsListPicture : FieldRef;
  performances : list FieldRef;
  recurrenceDates : list string
}.

Record Event : Type := {
  contentType : string;
  id : string;
  locale : string;
  revision : number;
  fields : EventFields
}.

(** ** The interface of [src/lib/date] used by [event.js]

    [lib/date] is imported by [event.js] but is not among the sources, so
    its five exports are the members of a class; the two format constants
    are the members of [DateFormat]. *)

Inductive DateFormat : Type :=
  | FORMAT_EUROPEAN_DATE
  | FORMAT_CONTENTFUL_ISO.

(** The object literal [{ year, month, day }] handed to [setDate]; a
    component the destructuring of [split] left [undefined] is [None]. *)
Record DateValues : Type := {
  year : option string;
  month : option string;
  day : option string
}.

Class DateLib : Type := {
  Duration : Type;
  setDate : string -> DateValues -> string;
  diffDate : string -> string -> Duration;
  addToDate : string -> Duration -> string;
  formatDate : string -> DateFormat -> string
}.

(** ** Ramda and [String.prototype.split] *)

(** [R.uniq]: one pass over the list with the set of the items already
    seen; an item is kept the first time it is met. *)
Fixpoint uniq_from (seen : gset string) (l : list string) : list string :=
  match l with
  | [] => []
  | x :: rest =>
      if decide (x ∈ seen) then uniq_from seen rest
      else x :: uniq_from ({[ x ]} ∪ seen) rest
  end.

Definition uniq (l : list string) : list string := uniq_from ∅ l.

(** [s.split(sep)] for a one-character separator. *)
Fixpoint split (sep : ascii) (s : string) : list string :=
  match s with
  | EmptyString => [EmptyString]
  | String c rest =>
      if Ascii.eqb c sep then EmptyString :: split sep rest
      else match split sep rest with
           | [] => [String c EmptyString]
           | p :: ps => String c p :: ps
           end
  end.

(** [Array.prototype.slice(1)] *)
Definition slice1 {A : Type} (l : list A) : list A := drop 1 l.

(** ** [src/data/event.js]: recurrence expansion *)

Section Recurrence.
Context {D : DateLib}.

Definition formatEuropeanDate (value : string) : string :=
  formatDate value FORMAT_EUROPEAN_DATE.

(** [R.mergeDeepRight(event, { fields: { startTime, endTime,
    recurrenceDates }, id })]: both [event.fields] and the right-hand
    [fields] are plain objects, so they are merged key by key; the
    right-hand strings and the right-hand array replace the left-hand
    values, every other key keeps the left-hand value. *)
Definition mergeFields (f : EventFields)
    (newStart newEnd : string) (newDates : list string) : EventFields :=
  {| name := name f;
     eventCategories := eventCategories f;
     audience := audience f;
     startTime := newStart;
     endTime := newEnd;
     location := location f;
     addressLine1 := addressLine1 f;
     addressLine2 := addressLine2 f;
     city := city f;
     postcode := postcode f;
     locationName := locationName f;
     eventPriceLow := eventPriceLow f;
     eventPriceHigh := eventPriceHigh f;
     accessibilityOptions := accessibilityOptions f;
     eventDescription := eventDescription f;
     accessibilityDetails := accessibilityDetails f;
     email := email f;
     phone := phone f;
     ticketingUrl := ticketingUrl f;
     venueDetails := venueDetails f;
     individualEventPicture := individualEventPicture f;
     eventsListPicture := eventsListPicture f;
     performances := performances f;
     recurrenceDates := newDates |}.

Definition generateRecurringEvent (event : Event)
    (recurrenceStartTime : string) : Event :=
  let endTime' := endTime (fields event) in
  let startTime' := startTime (fields event) in
  let difference := diffDate recurrenceStartTime startTime' in
  let recurrenceEndTime := addToDate endTime' difference in
  {| contentType := contentType event;
     id := id event ++ "-recurrence-"
             ++ formatEuropeanDate recurrenceStartTime;
     locale := locale event;
     revision := revision event;
     fields :=
       mergeFields (fields event)
         (formatDate recurrenceStartTime FORMAT_CONTENTFUL_ISO)
         (formatDate recurrenceEndTime FORMAT_CONTENTFUL_ISO)
         (formatEuropeanDate startTime'
            :: recurrenceDates (fields event)) |}.

Definition recurrenceDateToStartTime (originalStartTime : string)
    (recurrence : string) : string :=
  let parts := split "/" recurrence in
  let recurrenceDay := parts !! 0%nat in
  let recurrenceMonth := parts !! 1%nat in
  let recurrenceYear := parts !! 2%nat in
  formatDate
    (setDate originalStartTime
       {| year := recurrenceYear;
          month := recurrenceMonth;
          day := recurrenceDay |})
    FORMAT_CONTENTFUL_ISO.

(** The start times the expansion works on: the original one, then one
    per entry of [recurrenceDates]. *)
Definition recurrenceStartTimes (event : Event) : list string :=
  startTime (fields event)
    :: map (recurrenceDateToStartTime (startTime (fields event)))
         (recurrenceDates (fields event)).

Definition expandRecurringEvents (event : Event) : list Event :=
  let events :=
    map (generateRecurringEvent event)
        (slice1 (uniq (recurrenceStartTimes event))) in
  event :: events.

End Recurrence.

Section RecurrenceViews.
Context {D : DateLib}.

(** The start times [generateRecurringEvent] is mapped over. *)
Definition additionalStartTimes (event : Event) : list string :=
  slice1 (uniq (recurrenceStartTimes event)).

(** The start times the entries of [recurrenceDates] resolve to. *)
Definition resolvedStartTimes (event : Event) : list string :=
  map (recurrenceDateToStartTime (startTime (fields event)))
      (recurrenceDates (fields event)).

(** The distinct resolved start times other than the original one. *)
Definition distinctOtherStartTimes (event : Event) : gset string :=
  list_to_set (resolvedStartTimes event) ∖ {[ startTime (fields event) ]}.
End RecurrenceViews.

(** ** A model of [src/lib/date]

    Modelled from the spec: [lib/date] (parsing, formatting and arithmetic
    over date strings in a display format and a storage ISO format) is not
    among the sources.  The storage format is the one of the fixtures,
    [yyyy-MM-ddTHH:mm+00:00]; the display format is [dd/MM/yyyy]; a
    two-digit year is read as 20xx; a string that does not parse yields
    the [Invalid DateTime] marker. *)
Module DateModel.

Local Open Scope Z_scope.

Record DateTime : Type := {
  dt_year : Z;
  dt_month : Z;
  dt_day : Z;
  dt_hour : Z;
  dt_minute : Z
}.

Definition digitChar (d : Z) : ascii := ascii_of_nat (Z.to_nat (48 + d)).

Definition digitValue (c : ascii) : option Z :=
  let n := Z.of_nat (nat_of_ascii c) in
  if (48 <=? n) && (n <=? 57) then Some (n - 48) else None.

Definition pad2 (n : Z) (rest : string) : string :=
  String (digitChar (n / 10)) (String (digitChar (n mod 10)) rest).

Definition pad4 (n : Z) (rest : string) : string :=
  String (digitChar (n / 1000))
    (String (digitChar ((n / 100) mod 10)) (pad2 (n mod 100) rest)).

Definition num2 (a b : ascii) : option Z :=
  match digitValue a, digitValue b with
  | Some x, Some y => Some (10 * x + y)
  | _, _ => None
  end.

Definition num4 (a b c d : ascii) : option Z :=
  match num2 a b, num2 c d with
  | Some x, Some y => Some (100 * x + y)
  | _, _ => None
  end.

(** A run of decimal digits, as in the components of ["13/1/18"]. *)
Fixpoint digitsValue (acc : Z) (s : string) : option Z :=
  match s with
  | EmptyString => Some acc
  | String c rest =>
      match digitValue c with
      | Some d => digitsValue (10 * acc + d) rest
      | None => None
      end
  end.

Definition parseNumber (s : string) : option Z :=
  match s with
  | EmptyString => None
  | _ => digitsValue 0 s
  end.

Definition isLeapYear (y : Z) : bool :=
  ((y mod 4 =? 0) && negb (y mod 100 =? 0)) || (y mod 400 =? 0).

Definition daysInMonth (y m : Z) : Z :=
  if m =? 2 then (if isLeapYear y then 29 else 28)
  else if (m =? 4) || (m =? 6) || (m =? 9) || (m =? 11) then 30
  else 31.

Definition validDateTime (dt : DateTime) : bool :=
  (0 <=? dt_year dt) && (dt_year dt <=? 9999)
  && (1 <=? dt_month dt) && (dt_month dt <=? 12)
  && (1 <=? dt_day dt)
  && (dt_day dt <=? daysInMonth (dt_year dt) (dt_month dt))
  && (0 <=? dt_hour dt) && (dt_hour dt <=? 23)
  && (0 <=? dt_minute dt) && (dt_minute dt <=? 59).

Definition zoneSuffix (s : string) : bool :=
  String.eqb s "" || String.eqb s "+00:00".

Definition parseISO (s : string) : option DateTime :=
  match s with
  | String y1 (String y2 (String y3 (String y4 (String s1
      (String m1 (String m2 (String s2 (String d1 (String d2 (String s3
      (String h1 (String h2 (String s4 (String n1 (String n2 zone)))))))))))))))
    =>
      if Ascii.eqb s1 "-" && Ascii.eqb s2 "-" && Ascii.eqb s3 "T"
         && Ascii.eqb s4 ":" && zoneSuffix zone
      then
        match num4 y1 y2 y3 y4, num2 m1 m2, num2 d1 d2,
              num2 h1 h2, num2 n1 n2 with
        | Some y, Some m, Some d, Some h, Some n =>
            let dt := {| dt_year := y; dt_month := m; dt_day := d;
                         dt_hour := h; dt_minute := n |} in
            if validDateTime dt then Some dt else None
        | _, _, _, _, _ => None
        end
      else None
  | _ => None
  end.

Definition printISO (dt : DateTime) : string :=
  pad4 (dt_year dt) (String "-" (pad2 (dt_month dt) (String "-"
    (pad2 (dt_day dt) (String "T" (pad2 (dt_hour dt) (String ":"
      (pad2 (dt_minute dt) "+00:00")))))))).

Definition printEuropean (dt : DateTime) : string :=
  pad2 (dt_day dt) (String "/" (pad2 (dt_month dt) (String "/"
    (pad4 (dt_year dt) "")))).

Definition invalid : string := "Invalid DateTime".

(** Days since 1970-01-01 of a civil date, and back. *)
Definition daysFromCivil (y m d : Z) : Z :=
  let y' := if m <=? 2 then y - 1 else y in
  let era := y' / 400 in
  let yoe := y' - era * 400 in
  let mp := if 2 <? m then m - 3 else m + 9 in
  let doy := (153 * mp + 2) / 5 + d - 1 in
  let doe := yoe * 365 + yoe / 4 - yoe / 100 + doy in
  era * 146097 + doe - 719468.

Definition civilFromDays (z : Z) : Z * Z * Z :=
  let z' := z + 719468 in
  let era := z' / 146097 in
  let doe := z' - era * 146097 in
  let yoe := (doe - doe / 1460 + doe / 36524 - doe / 146096) / 365 in
  let doy := doe - (365 * yoe + yoe / 4 - yoe / 100) in
  let mp := (5 * doy + 2) / 153 in
  let d := doy - (153 * mp + 2) / 5 + 1 in
  let m := if mp <? 10 then mp + 3 else mp - 9 in
  (yoe + era * 400 + (if m <=? 2 then 1 else 0), m, d).

(** Minutes since 1970-01-01T00:00. *)
Definition toMinutes (dt : DateTime) : Z :=
  daysFromCivil (dt_year dt) (dt_month dt) (dt_day dt) * 1440
  + dt_hour dt * 60 + dt_minute dt.

Definition ofMinutes (w : Z) : DateTime :=
  let '(y, m, d) := civilFromDays (w / 1440) in
  let r := w mod 1440 in
  {| dt_year := y; dt_month := m; dt_day := d;
     dt_hour := r / 60; dt_minute := r mod 60 |}.

Definition render (dt : DateTime) (format : DateFormat) : string :=
  if validDateTime dt then
    match format with
    | FORMAT_EUROPEAN_DATE => printEuropean dt
    | FORMAT_CONTENTFUL_ISO => printISO dt
    end
  else invalid.

Definition toFormat (date : string) (format : DateFormat) : string :=
  match parseISO date with
  | Some dt => render dt format
  | None => invalid
  end.

Definition century (y : Z) : Z := if y <? 100 then 2000 + y else y.

Definition set (date : string) (values : DateValues) : string :=
  match parseISO date,
        year values ≫= parseNumber,
        month values ≫= parseNumber,
        day values ≫= parseNumber with
  | Some dt, Some y, Some m, Some d =>
      render {| dt_year := century y; dt_month := m; dt_day := d;
                dt_hour := dt_hour dt; dt_minute := dt_minute dt |}
             FORMAT_CONTENTFUL_ISO
  | _, _, _, _ => invalid
  end.

(** The difference of two dates, in minutes; [None] when one of them
    does not parse. *)
Definition diff (date1 date2 : string) : option Z :=
  match parseISO date1, parseISO date2 with
  | Some a, Some b => Some (toMinutes a - toMinutes b)
  | _, _ => None
  end.

Definition add (date : string) (duration : option Z) : string :=
  match parseISO date, duration with
  | Some dt, Some n => render (ofMinutes (toMinutes dt + n)) FORMAT_CONTENTFUL_ISO
  | _, _ => invalid
  end.

Definition instant (date : string) : option Z :=
  toMinutes <$> parseISO date.

(** The instants the model can print with a four-digit year: from 1970
    to some time in the year 9575. *)
Definition representable (w : Z) : Prop := 0 <= w < 4000000000.

#[export] Instance lib : DateLib := {|
  Duration := option Z;
  setDate := set;
  diffDate := diff;
  addToDate := add;
  formatDate := toFormat
|}.

End DateModel.

(** ** A model of [src/lib/decode] and [src/lib/maybe]

    Modelled from the spec: [lib/decode] and [lib/maybe] are imported by
    [event.js] but are not among the sources.  The spec (decoder
    primitives) gives each combinator's contract: a decoder maps an
    untyped value to a success or to a failure that carries a path and a
    message. *)

Inductive Json : Type :=
  | JNull
  | JBool (b : bool)
  | JNumber (n : number)
  | JString (s : string)
  | JArray (items : list Json)
  | JObject (members : list (string * Json)).

Fixpoint getMember (key : string) (members : list (string * Json))
    : option Json :=
  match members with
  | [] => None
  | (k, v) :: rest => if String.eqb k key then Some v else getMember key rest
  end.

Module decode.

Inductive Segment : Type :=
  | Key (k : string)
  | Index (i : nat).

Inductive Problem : Type :=
  | MissingField
  | NotA (expected : string)
  | NotEqual (literal : string)
  | NoneMatched.

Record DecodeError : Type := {
  path : list Segment;
  problem : Problem
}.

Inductive Result (A : Type) : Type :=
  | Ok (a : A)
  | Err (e : DecodeError).
Arguments Ok {A} a.
Arguments Err {A} e.

Definition Decoder (A : Type) : Type := Json -> Result A.

#[global] Instance result_ret : MRet Result := fun A a => Ok a.
#[global] Instance result_bind : MBind Result := fun A B f r =>
  match r with
  | Ok a => f a
  | Err e => Err e
  end.

Definition failure {A : Type} (p : Problem) : Result A :=
  Err {| path := []; problem := p |}.

(** A failure met below segment [seg] reports the longer path. *)
Definition under {A : Type} (seg : Segment) (r : Result A) : Result A :=
  match r with
  | Ok a => Ok a
  | Err e => Err {| path := seg :: path e; problem := problem e |}
  end.

Definition succeed {A : Type} (x : A) : Decoder A := fun _ => Ok x.

Definition string : Decoder String.string := fun v =>
  match v with
  | JString s => Ok s
  | _ => failure (NotA "string")
  end.

Definition number : Decoder number := fun v =>
  match v with
  | JNumber n => Ok n
  | _ => failure (NotA "number")
  end.

(** [value(literal)]: succeeds only if the input strictly equals the
    literal; [event.js] only uses string literals. *)
Definition value (literal : String.string) : Decoder String.string := fun v =>
  match v with
  | JString s => if String.eqb s literal then Ok literal
                 else failure (NotEqual literal)
  | _ => failure (NotEqual literal)
  end.

(** [field(name, decoder)]: [MissingField] if [name] is absent. *)
Definition field {A : Type} (name : String.string) (decoder : Decoder A)
    : Decoder A := fun v =>
  match v with
  | JObject members =>
      match getMember name members with
      | Some x => under (Key name) (decoder x)
      | None => Err {| path := [Key name]; problem := MissingField |}
      end
  | _ => Err {| path := [Key name]; problem := MissingField |}
  end.

(** [at(path, decoder)]: repeated [field] traversal. *)
Fixpoint at_ {A : Type} (keys : list String.string) (decoder : Decoder A)
    : Decoder A :=
  match keys with
  | [] => decoder
  | k :: rest => field k (at_ rest decoder)
  end.

Fixpoint arrayFrom {A : Type} (decoder : Decoder A) (i : nat)
    (items : list Json) : Result (list A) :=
  match items with
  | [] => Ok []
  | x :: rest =>
      match decoder x with
      | Ok a =>
          match arrayFrom decoder (S i) rest with
          | Ok others => Ok (a :: others)
          | Err e => Err e
          end
      | Err e => under (Index i) (Err e)
      end
  end.

(** [array(decoder)]: the first failing element's error, under its
    index. *)
Definition array {A : Type} (decoder : Decoder A) : Decoder (list A) :=
  fun v =>
    match v with
    | JArray items => arrayFrom decoder 0 items
    | _ => failure (NotA "array")
    end.

(** [oneOf(decoders)]: the first decoder that succeeds. *)
Fixpoint oneOf {A : Type} (decoders : list (Decoder A)) : Decoder A :=
  fun v =>
    match decoders with
    | [] => failure NoneMatched
    | d :: rest =>
        match d v with
        | Ok a => Ok a
        | Err _ => oneOf rest v
        end
    end.

(** [maybe(decoder)]: never fails; present when the wrapped decoder
    succeeds, absent otherwise. *)
Definition maybe {A : Type} (decoder : Decoder A) : Decoder (Maybe A) :=
  fun v =>
    match decoder v with
    | Ok a => Ok (Some a)
    | Err _ => Ok None
    end.

Definition map {A B : Type} (f : A -> B) (decoder : Decoder A)
    : Decoder B := fun v =>
  match decoder v with
  | Ok a => Ok (f a)
  | Err e => Err e
  end.

End decode.

Module maybe.
Definition withDefault {A : Type} (defaultValue : A) (m : Maybe A) : A :=
  match m with
  | Some a => a
  | None => defaultValue
  end.
End maybe.

(** ** [src/data/event.js]: the decoder *)

Abbreviation Decoder := decode.Decoder.

Definition decodeEventCategoryName : Decoder EventCategoryName :=
  decode.oneOf (List.map decode.value eventCategoryNames).

Definition maybeField {A : Type} (locale field : string)
    (decoder : Decoder A) : Decoder (Maybe A) :=
  decode.field field (decode.maybe (decode.field locale decoder)).

Definition maybeFieldWithDefault {A : Type} (locale field : string)
    (decoder : Decoder A) (defaultValue : A) : Decoder A :=
  decode.map (maybe.withDefault defaultValue)
    (maybeField locale field decoder).

Section DecodeEvent.
(** [decodeFieldRef] of [./field-ref], which is not among the sources. *)
Variable decodeFieldRef : Decoder FieldRef.

(** [decode.shape({ lat, lon })]: the keys are decoded in declaration
    order and the first failure is the failure of the shape. *)
Definition decodeLocation : Decoder Location := fun v =>
  lat' ← decode.field "lat" decode.number v;
  lon' ← decode.field "lon" decode.number v;
  mret {| lat := lat'; lon := lon' |}.

Definition decodeEventFields (locale : string) : Decoder EventFields :=
  fun v =>
  name' ← decode.at_ ["name"; locale] decode.string v;
  eventCategories' ←
    decode.at_ ["eventCategories"; locale]
      (decode.array decodeEventCategoryName) v;
  audience' ←
    maybeFieldWithDefault locale "audience"
      (decode.array decode.string) [] v;
  startTime' ← decode.at_ ["startTime"; locale] decode.string v;
  endTime' ← decode.at_ ["endTime"; locale] decode.string v;
  location' ← decode.at_ ["location"; locale] decodeLocation v;
  addressLine1' ← maybeField locale "addressLine1" decode.string v;
  addressLine2' ← maybeField locale "addressLine2" decode.string v;
  city' ← maybeField locale "city" decode.string v;
  postcode' ← maybeField locale "postcode" decode.string v;
  locationName' ← decode.at_ ["locationName"; locale] decode.string v;
  eventPriceLow' ← decode.at_ ["eventPriceLow"; locale] decode.number v;
  eventPriceHigh' ← decode.at_ ["eventPriceHigh"; locale] decode.number v;
  accessibilityOptions' ←
    maybeFieldWithDefault locale "accessibilityOptions"
      (decode.array decode.string) [] v;
  eventDescription' ←
    decode.at_ ["eventDescription"; locale] decode.string v;
  accessibilityDetails' ←
    maybeField locale "accessibilityDetails" decode.string v;
  email' ← maybeField locale "email" decode.string v;
  phone' ← maybeField locale "phone" decode.string v;
  ticketingUrl' ← maybeField locale "ticketingUrl" decode.string v;
  venueDetails' ←
    maybeFieldWithDefault locale "venueDetails"
      (decode.array decode.string) [] v;
  individualEventPicture' ←
    decode.at_ ["individualEventPicture"; locale] decodeFieldRef v;
  eventsListPicture' ←
    decode.at_ ["eventsListPicture"; locale] decodeFieldRef v;
  performances' ←
    maybeFieldWithDefault locale "performances"
      (decode.array decodeFieldRef) [] v;
  recurrenceDates' ←
    maybeFieldWithDefault locale "recurrenceDates"
      (decode.array decode.string) [] v;
  mret {| name := name';
          eventCategories := eventCategories';
          audience := audience';
          startTime := startTime';
          endTime := endTime';
          location := location';
          addressLine1 := addressLine1';
          addressLine2 := addressLine2';
          city := city';
          postcode := postcode';
          locationName := locationName';
          eventPriceLow := eventPriceLow';
          eventPriceHigh := eventPriceHigh';
          accessibilityOptions := accessibilityOptions';
          eventDescription := eventDescription';
          accessibilityDetails := accessibilityDetails';
          email := email';
          phone := phone';
          ticketingUrl := ticketingUrl';
          venueDetails := venueDetails';
          individualEventPicture := individualEventPicture';
          eventsListPicture := eventsListPicture';
          performances := performances';
          recurrenceDates := recurrenceDates' |}.

Definition decodeEvent (locale : string) : Decoder Event := fun v =>
  contentType' ←
    decode.at_ ["sys"; "contentType"; "sys"; "id"] (decode.value "event") v;
  id' ← decode.at_ ["sys"; "id"] decode.string v;
  locale' ← decode.succeed locale v;
  revision' ← decode.at_ ["sys"; "revision"] decode.number v;
  fields' ← decode.field "fields" (decodeEventFields locale) v;
  mret {| contentType := contentType';
          id := id';
          locale := locale';
          revision := revision';
          fields := fields' |}.

End DecodeEvent.

(** ** Views of the decoder used to state its properties *)

(** The value found by following a path of member names. *)
Fixpoint jsonAt (keys : list string) (v : Json) : option Json :=
  match keys with
  | [] => Some v
  | k :: rest =>
      match v with
      | JObject members =>
          match getMember k members with
          | Some x => jsonAt rest x
          | None => None
          end
      | _ => None
      end
  end.

Definition isOk {A : Type} (r : decode.Result A) : bool :=
  match r with
  | decode.Ok _ => true
  | decode.Err _ => false
  end.

Definition succeeds {A : Type} (d : Decoder A) (v : Json) : bool :=
  isOk (d v).

Section DecodeChecks.
Variable decodeFieldRef : Decoder FieldRef.

(** One check per key of the inner [decode.shape] of [decodeEvent], in
    declaration order. *)
Definition fieldChecks (locale : string) : list (Json → bool) :=
  [ succeeds (decode.at_ ["name"; locale] decode.string);
    succeeds (decode.at_ ["eventCategories"; locale]
                (decode.array decodeEventCategoryName));
    succeeds (maybeFieldWithDefault locale "audience"
                (decode.array decode.string) []);
    succeeds (decode.at_ ["startTime"; locale] decode.string);
    succeeds (decode.at_ ["endTime"; locale] decode.string);
    succeeds (decode.at_ ["location"; locale] decodeLocation);
    succeeds (maybeField locale "addressLine1" decode.string);
    succeeds (maybeField locale "addressLine2" decode.string);
    succeeds (maybeField locale "city" decode.string);
    succeeds (maybeField locale "postcode" decode.string);
    succeeds (decode.at_ ["locationName"; locale] decode.string);
    succeeds (decode.at_ ["eventPriceLow"; locale] decode.number);
    succeeds (decode.at_ ["eventPriceHigh"; locale] decode.number);
    succeeds (maybeFieldWithDefault locale "accessibilityOptions"
                (decode.array decode.string) []);
    succeeds (decode.at_ ["eventDescription"; locale] decode.string);
    succeeds (maybeField locale "accessibilityDetails" decode.string);
    succeeds (maybeField locale "email" decode.string);
    succeeds (maybeField locale "phone" decode.string);
    succeeds (maybeField locale "ticketingUrl" decode.string);
    succeeds (maybeFieldWithDefault locale "venueDetails"
                (decode.array decode.string) []);
    succeeds (decode.at_ ["individualEventPicture"; locale] decodeFieldRef);
    succeeds (decode.at_ ["eventsListPicture"; locale] decodeFieldRef);
    succeeds (maybeFieldWithDefault locale "performances"
                (decode.array decodeFieldRef) []);
    succeeds (maybeFieldWithDefault locale "recurrenceDates"
                (decode.array decode.string) []) ].

(** One check per key of the outer [decode.shape] that reads [sys]. *)
Definition sysChecks : list (Json → bool) :=
  [ succeeds (decode.at_ ["sys"; "contentType"; "sys"; "id"]
                (decode.value "event"));
    succeeds (decode.at_ ["sys"; "id"] decode.string);
    succeeds (decode.at_ ["sys"; "revision"] decode.number) ].
End DecodeChecks.

(** ** [R.mergeDeepRight] on JavaScript objects

    Ramda's [mergeDeepRight(l, r)]: the keys of [l] in their order, each
    with the merge of the two values when both are plain objects, with
    the value of [r] when [r] has the key and with its own value
    otherwise; then the keys only [r] has.  Arrays are not plain objects. *)

Definition hasMember (key : string) (members : list (string * Json)) : bool :=
  match getMember key members with
  | Some _ => true
  | None => false
  end.

Fixpoint mergeDeepRight (l r : Json) {struct l} : Json :=
  match l, r with
  | JObject lm, JObject rm =>
      JObject
        ((fix mergeLeft (ms : list (string * Json)) : list (string * Json) :=
            match ms with
            | [] => []
            | (k, lv) :: rest =>
                (k, match getMember k rm with
                    | Some rv => mergeDeepRight lv rv
                    | None => lv
                    end) :: mergeLeft rest
            end) lm
         ++ List.filter (fun kv => negb (hasMember (fst kv) lm)) rm)
  | _, _ => r
  end.

(** The object an [Event] record is at run time. *)
Definition maybeToJs (m : Maybe string) : Json :=
  match m with
  | Some s => JString s
  | None => JNull
  end.

Definition stringsToJs (l : list string) : Json := JArray (List.map JString l).

Definition fieldRefToJs (r : FieldRef) : Json :=
  JObject [("sys", JObject [("id", JString (ref_id (sys r)))])].

Definition fieldsToJs (f : EventFields) : Json :=
  JObject
    [ ("name", JString (name f));
      ("eventCategories", stringsToJs (eventCategories f));
      ("audience", stringsToJs (audience f));
      ("startTime", JString (startTime f));
      ("endTime", JString (endTime f));
      ("location", JObject [("lat", JNumber (lat (location f)));
                            ("lon", JNumber (lon (location f)))]);
      ("addressLine1", maybeToJs (addressLine1 f));
      ("addressLine2", maybeToJs (addressLine2 f));
      ("city", maybeToJs (city f));
      ("postcode", maybeToJs (postcode f));
      ("locationName", JString (locationName f));
      ("eventPriceLow", JNumber (eventPriceLow f));
      ("eventPriceHigh", JNumber (eventPriceHigh f));
      ("accessibilityOptions", stringsToJs (accessibilityOptions f));
      ("eventDescription", JString (eventDescription f));
      ("accessibilityDetails", maybeToJs (accessibilityDetails f));
      ("email", maybeToJs (email f));
      ("phone", maybeToJs (phone f));
      ("ticketingUrl", maybeToJs (ticketingUrl f));
      ("venueDetails", stringsToJs (venueDetails f));
      ("individualEventPicture", fieldRefToJs (individualEventPicture f));
      ("eventsListPicture", fieldRefToJs (eventsListPicture f));
      ("performances", JArray (List.map fieldRefToJs (performances f)));
      ("recurrenceDates", stringsToJs (recurrenceDates f)) ].

Definition eventToJs (e : Event) : Json :=
  JObject
    [ ("contentType", JString (contentType e));
      ("id", JString (id e));
      ("locale", JString (locale e));
      ("revision", JNumber (revision e));
      ("fields", fieldsToJs (fields e)) ].

(** The object literal [generateRecurringEvent] merges into the event. *)
Definition recurrencePatch (newStart newEnd : string)
    (newDates : list string) (newId : string) : Json :=
  JObject
    [ ("fields", JObject [ ("startTime", JString newStart);
                           ("endTime", JString newEnd);
                           ("recurrenceDates", stringsToJs newDates) ]);
      ("id", JString newId) ].

(** ** [src/screens/FilterModal/component.js]: [toggleTagFilter]

    A [Set] is an object on the heap: the store maps the reference of
    each live [Set] to its members, and [delete] and [add] update the
    store at the reference they are called on. *)

Definition SetRef : Type := positive.
Abbreviation Heap := (gmap SetRef (gset string)).

(** [new Set(items)] *)
Definition newSet (items : list string) (h : Heap) : SetRef * Heap :=
  let r := fresh (dom h) in
  (r, <[r := list_to_set items]> h).

(** [[...s]] *)
Definition spread (s : SetRef) (h : Heap) : option (list string) :=
  elements <$> h !! s.

(** [s.delete(v)]: removes [v] and tells whether it was a member. *)
Definition setDelete (s : SetRef) (v : string) (h : Heap)
    : option (bool * Heap) :=
  match h !! s with
  | Some members =>
      Some (bool_decide (v ∈ members), <[s := members ∖ {[ v ]}]> h)
  | None => None
  end.

(** [s.add(v)] *)
Definition setAdd (s : SetRef) (v : string) (h : Heap) : option Heap :=
  match h !! s with
  | Some members => Some (<[s := members ∪ {[ v ]}]> h)
  | None => None
  end.

Definition toggleTagFilter (selectedValues : SetRef) (sectionValue : string)
    (h : Heap) : option (SetRef * Heap) :=
  items ← spread selectedValues h;
  let '(values, h1) := newSet items h in
  '(deleted, h2) ← setDelete values sectionValue h1;
  h3 ← (if negb deleted then setAdd values sectionValue h2 else Some h2);
  Some (values, h3).

(** ** Sample data

    The values the examples below are run on. *)

Definition sampleEventFields : EventFields :=
  {| name := "Pride in the Park";
     eventCategories := ["Community"; "Music"];
     audience := [];
     startTime := "2018-01-09T11:00+00:00";
     endTime := "2018-01-09T18:30+00:00";
     location := {| lat := 51.5%float; lon := (-0.125)%float |};
     addressLine1 := None;
     addressLine2 := None;
     city := Some "London";
     postcode := None;
     locationName := "Vauxhall Pleasure Gardens";
     eventPriceLow := 19.5%float;
     eventPriceHigh := 30%float;
     accessibilityOptions := ["Accessible Toilets"];
     eventDescription := "A day in the park";
     accessibilityDetails := None;
     email := Some "john.smith@eventname.com";
     phone := None;
     ticketingUrl := None;
     venueDetails := ["Gender neutral toilets"];
     individualEventPicture := {| sys := {| ref_id := "HNLFqItbkAmW8ssqQECIy" |} |};
     eventsListPicture := {| sys := {| ref_id := "HNLFqItbkAmW8ssqQECIy" |} |};
     performances := [];
     recurrenceDates := ["13/1/18"; "15/1/18"] |}.

Definition sampleEvent : Event :=
  {| contentType := "event"; id := "abc"; locale := "en-GB";
     revision := 1%float; fields := sampleEventFields |}.

Definition withRecurrenceDates (e : Event) (dates : list string) : Event :=
  {| contentType := contentType e; id := id e; locale := locale e;
     revision := revision e;
     fields := mergeFields (fields e) (startTime (fields e))
                 (endTime (fields e)) dates |}.

(** An event without recurrence, and one whose recurrence dates are not
    in calendar order. *)
Definition singleEvent : Event := withRecurrenceDates sampleEvent [].
Definition unsortedEvent : Event :=
  withRecurrenceDates sampleEvent ["15/1/18"; "13/1/18"].

(** The start times of [l], read as instants by [instantOf], never go
    back in time along the list. *)
Definition chronological (instantOf : string → option Z) (l : list Event)
    : Prop :=
  ∀ (i j : nat) a b za zb,
    (i < j)%nat → l !! i = Some a → l !! j = Some b →
    instantOf (startTime (fields a)) = Some za →
    instantOf (startTime (fields b)) = Some zb →
    (za <= zb)%Z.

Definition sampleHeap : Heap := {[ 1%positive := {[ "Music"; "Health" ]} ]}.

(** Modelled from the spec: [decodeFieldRef] of [./field-ref], read as the
    decoder of the [sys.id] of a reference. *)
Definition decodeFieldRefModel : Decoder FieldRef := fun v =>
  i ← decode.at_ ["sys"; "id"] decode.string v;
  mret {| sys := {| ref_id := i |} |}.

Definition localised (v : Json) : Json := JObject [("en-GB", v)].

Definition sampleAsset : Json :=
  JObject [("sys", JObject [("id", JString "HNLFqItbkAmW8ssqQECIy");
                            ("type", JString "Asset")])].

(** A raw content entry shaped like the fixture of the event screen. *)
Definition sampleEntryWith (categories : list string) : Json :=
  JObject
    [ ("sys", JObject [ ("id", JString "abc");
                        ("revision", JNumber 1%float);
                        ("contentType",
                         JObject [("sys", JObject [("id", JString "event")])]) ]);
      ("fields",
       JObject
         [ ("name", localised (JString "Pride in the Park"));
           ("location",
            localised (JObject [("lon", JNumber (-0.125)%float);
                                ("lat", JNumber 51.5%float)]));
           ("locationName", localised (JString "Vauxhall Pleasure Gardens"));
           ("startTime", localised (JString "2018-01-09T11:00+00:00"));
           ("endTime", localised (JString "2018-01-09T18:30+00:00"));
           ("eventPriceLow", localised (JNumber 19.5%float));
           ("eventPriceHigh", localised (JNumber 30%float));
           ("eventDescription", localised (JString "A day in the park"));
           ("individualEventPicture", localised sampleAsset);
           ("eventsListPicture", localised sampleAsset);
           ("accessibilityOptions",
            localised (JArray [JString "Accessible Toilets"]));
           ("eventCategories", localised (JArray (List.map JString categories)));
           ("recurrenceDates",
            localised (JArray [JString "13/1/18"; JString "15/1/18"]));
           ("audience", JObject []);
           ("addressLine1", JObject []);
           ("addressLine2", JObject []);
           ("city", localised (JString "London"));
           ("postcode", JObject []);
           ("accessibilityDetails", JObject []);
           ("email", localised (JString "john.smith@eventname.com"));
           ("phone", JObject []);
           ("ticketingUrl", JObject []);
           ("venueDetails", localised (JArray [JString "Gender neutral toilets"]));
           ("performances", JObject []) ]) ].

Definition sampleEntry : Json := sampleEntryWith ["Community"; "Music"].

(** ** Further views of the decoder and of recurrence dates *)

(** [s] holds no occurrence of the character [c]. *)
Fixpoint freeOf (c : ascii) (s : string) : bool :=
  match s with
  | EmptyString => true
  | String a rest => negb (Ascii.eqb a c) && freeOf c rest
  end.

(** What a failure below a path reports. *)
Definition underPath {A : Type} (keys : list string) (r : decode.Result A)
    : decode.Result A :=
  foldr (fun k acc => decode.under (decode.Key k) acc) r keys.

(** ** [src/screens/FilterModal/component.js]: the rest of the tag filter *)

(** [s.has(v)] *)
Definition setHas (s : SetRef) (v : string) (h : Heap) : option bool :=
  match h !! s with
  | Some members => Some (bool_decide (v ∈ members))
  | None => None
  end.

(** The object [clearTagFilters] hands to [onChange]:
    [Object.keys(tags).reduce((acc, key) => ({ ...acc, [key]: new Set() }), {})].
    [tags] of [../../data/tags] is not among the sources; its keys are the
    argument.  The object maps a key to the reference of its [Set]. *)
Definition clearStep (state : gmap string SetRef * Heap) (key : string)
    : gmap string SetRef * Heap :=
  let '(acc, h) := state in
  let '(r, h') := newSet [] h in
  (<[key := r]> acc, h').

Definition clearTagFilters (tagKeys : list string) (h : Heap)
    : gmap string SetRef * Heap :=
  fold_left clearStep tagKeys (∅, h).

(** ** [SegmentedControl] (the component listed with [event.js]) *)

Inductive StyleName : Type :=
  | button
  | buttonSelected
  | buttonBorderStart
  | buttonBorderEnd
  | borderButtonLeft.

(** One [Touchable] of the control.  [onPress] is the index the button
    hands to [onSelectedIndexChange]; an entry of the [style] array whose
    condition is false is [None]. *)
Record Touchable : Type := {
  key : string;
  accessibilityComponentType : string;
  accessibilityTraits : list string;
  onPress : Z;
  style : list (option StyleName);
  testID : string;
  text : string
}.

(** [index === selectedIndex] for a [selectedIndex] of type [?number]. *)
Definition isSelected (index : Z) (selectedIndex : option Z) : bool :=
  match selectedIndex with
  | Some s => Z.eqb index s
  | None => false
  end.

Definition when (condition : bool) (name : StyleName) : option StyleName :=
  if condition then Some name else None.

Definition SegmentedControl (selectedIndex : option Z) (values : list string)
    : list Touchable :=
  imap (fun i value =>
    let index := Z.of_nat i in
    {| key := value;
       accessibilityComponentType :=
         if isSelected index selectedIndex then "radiobutton_checked"
         else "radiobutton_unchecked";
       accessibilityTraits :=
         if isSelected index selectedIndex then ["button"; "selected"]
         else ["button"];
       onPress := index;
       style :=
         [ Some button;
           when (isSelected index selectedIndex) buttonSelected;
           when (Z.eqb index 0) buttonBorderStart;
           when (Z.eqb index (Z.of_nat (length values) - 1)) buttonBorderEnd;
           when (negb (isSelected (index - 1) selectedIndex)) borderButtonLeft ];
       testID := "button-" ++ NilEmpty.string_of_uint (Nat.to_uint i);
       text := value |}) values.

(** The reduction of [clearTagFilters] keeps: every key maps to a [Set]
    that is empty and was not live before, distinct keys map to distinct
    [Set]s, and the [Set]s that were live are as they were. *)
Definition cleared (h : Heap) (state : gmap string SetRef * Heap) : Prop :=
  (∀ k r, state.1 !! k = Some r → state.2 !! r = Some ∅ ∧ h !! r = None)
  ∧ (∀ k1 k2 r, state.1 !! k1 = Some r → state.1 !! k2 = Some r → k1 = k2)
  ∧ (∀ l members, h !! l = Some members → state.2 !! l = Some members).

(** ** Further sample data *)

(** A raw entry whose content type is not [event], and one whose
    [recurrenceDates] has no value for any locale. *)
Definition pageEntry : Json :=
  JObject [("sys", JObject [("contentType",
             JObject [("sys", JObject [("id", JString "page")])])])].

Fixpoint replaceMember (name : string) (v : Json)
    (members : list (string * Json)) : list (string * Json) :=
  match members with
  | [] => []
  | (k, x) :: rest =>
      if String.eqb k name then (k, v) :: rest
      else (k, x) :: replaceMember name v rest
  end.

Definition singleEntry : Json :=
  match sampleEntry with
  | JObject [sysPart; (fieldsKey, JObject members)] =>
      JObject [sysPart;
               (fieldsKey,
                JObject (replaceMember "recurrenceDates" (JObject []) members))]
  | other => other
  end.

Definition sampleCategories : Json :=
  JObject [("en-GB", JArray [JString "Community"; JString "Music"])].

(** ** What [decodeEvent] requires of a raw record

    The required keys of [decodeEvent], each as the path from the record
    to the value and what the decoder at the end of that path accepts.
    For the two pictures the decoder is [decodeFieldRef], which is not
    among the sources: only their presence is listed. *)
Inductive Expected : Type :=
  | ExpectLiteral (literal : string)
  | ExpectString
  | ExpectNumber
  | ExpectCategories
  | ExpectPresent.

Definition isCategory (x : Json) : bool :=
  match x with
  | JString s => bool_decide (s ∈ eventCategoryNames)
  | _ => false
  end.

(** Whether what the record holds at a path ([None]: nothing) is what is
    expected there. *)
Definition conforms (found : option Json) (expected : Expected) : bool :=
  match found, expected with
  | Some (JString s), ExpectLiteral literal => String.eqb s literal
  | Some (JString _), ExpectString => true
  | Some (JNumber _), ExpectNumber => true
  | Some (JArray items), ExpectCategories => forallb isCategory items
  | Some _, ExpectPresent => true
  | _, _ => false
  end.

Definition requiredValues (locale : string) : list (list string * Expected) :=
  [ (["sys"; "contentType"; "sys"; "id"], ExpectLiteral "event");
    (["sys"; "id"], ExpectString);
    (["sys"; "revision"], ExpectNumber);
    (["fields"; "name"; locale], ExpectString);
    (["fields"; "eventCategories"; locale], ExpectCategories);
    (["fields"; "startTime"; locale], ExpectString);
    (["fields"; "endTime"; locale], ExpectString);
    (["fields"; "location"; locale; "lat"], ExpectNumber);
    (["fields"; "location"; locale; "lon"], ExpectNumber);
    (["fields"; "locationName"; locale], ExpectString);
    (["fields"; "eventPriceLow"; locale], ExpectNumber);
    (["fields"; "eventPriceHigh"; locale], ExpectNumber);
    (["fields"; "eventDescription"; locale], ExpectString);
    (["fields"; "individualEventPicture"; locale], ExpectPresent);
    (["fields"; "eventsListPicture"; locale], ExpectPresent) ].

(** The sample entry with a string where its location should be. *)
Definition nowhereEntry : Json :=
  match sampleEntry with
  | JObject [sysPart; (fieldsKey, JObject members)] =>
      JObject [sysPart;
               (fieldsKey,
                JObject (replaceMember "location"
                           (localised (JString "nowhere")) members))]
  | other => other
  end.

(** * Properties *)

(** *** Facts about [R.uniq] *)

Lemma uniq_from_elem seen l x :
  x ∈ uniq_from seen l ↔ x ∈ l ∧ x ∉ seen.
Proof.
  revert seen. induction l as [|a rest IH]; intros seen; simpl.
  - set_solver.
  - destruct (decide (a ∈ seen)) as [Hin|Hout].
    + rewrite IH, elem_of_cons. naive_solver.
    + rewrite !elem_of_cons, IH, elem_of_union, elem_of_singleton.
      destruct (decide (x = a)); naive_solver.
Qed.

Lemma uniq_from_NoDup seen l : NoDup (uniq_from seen l).
Proof.
  revert seen. induction l as [|a rest IH]; intros seen; simpl.
  - constructor.
  - destruct (decide (a ∈ seen)); [apply IH|].
    constructor; [|apply IH].
    rewrite uniq_from_elem. set_solver.
Qed.

Lemma size_add_fresh (x : string) (X : gset string) :
  x ∉ X → size ({[ x ]} ∪ X) = S (size X).
Proof.
  intros Hx.
  pose proof (size_union (C:=gset string) {[ x ]} X) as Hsize.
  rewrite Hsize by set_solver. by rewrite size_singleton.
Qed.

Lemma uniq_from_length seen l :
  length (uniq_from seen l) = size (list_to_set l ∖ seen : gset string).
Proof.
  revert seen. induction l as [|a rest IH]; intros seen; simpl.
  - assert ((∅ : gset string) ∖ seen = ∅) as -> by set_solver.
    by rewrite size_empty.
  - destruct (decide (a ∈ seen)) as [Hin|Hout].
    + rewrite IH. f_equal. set_solver.
    + simpl. rewrite IH.
      assert ((({[a]} ∪ list_to_set rest) ∖ seen : gset string)
              = {[a]} ∪ (list_to_set rest ∖ ({[a]} ∪ seen))) as ->.
      { apply set_eq. intros y. destruct (decide (y = a)); set_solver. }
      rewrite size_add_fresh by set_solver. reflexivity.
Qed.

Lemma uniq_cons x l : uniq (x :: l) = x :: uniq_from {[ x ]} l.
Proof.
  unfold uniq. simpl.
  destruct (decide (x ∈ (∅ : gset string))) as [Hin|_]; [set_solver|].
  by rewrite (right_id_L ∅ (∪)).
Qed.

(** Entries are kept in the order of their first appearance. *)
Lemma uniq_from_order seen l : ∀ (i j : nat) x y,
  uniq_from seen l !! i = Some x → uniq_from seen l !! j = Some y →
  (i < j)%nat →
  ∃ i', l !! i' = Some x ∧ ∀ j', l !! j' = Some y → (i' < j')%nat.
Proof.
  revert seen. induction l as [|a rest IH]; intros seen i j x y Hi Hj Hlt.
  - simpl in Hi. by rewrite lookup_nil in Hi.
  - simpl in Hi, Hj. destruct (decide (a ∈ seen)) as [Hin|Hout].
    + destruct (IH _ _ _ _ _ Hi Hj Hlt) as (i' & Hx & Hy).
      exists (S i'). split; [done|]. intros [|j'] Hj'.
      * simpl in Hj'. injection Hj' as ->.
        apply list_elem_of_lookup_2, uniq_from_elem in Hj. tauto.
      * apply Hy in Hj'. lia.
    + destruct j as [|j]; [lia|]. simpl in Hj.
      assert (y ≠ a) as Hya.
      { apply list_elem_of_lookup_2, uniq_from_elem in Hj. set_solver. }
      destruct i as [|i].
      * simpl in Hi. injection Hi as ->. exists 0%nat. split; [done|].
        intros [|j'] Hj'; [|lia]. simpl in Hj'. congruence.
      * simpl in Hi.
        destruct (IH _ _ _ _ _ Hi Hj ltac:(lia)) as (i' & Hx & Hy).
        exists (S i'). split; [done|]. intros [|j'] Hj'.
        -- simpl in Hj'. congruence.
        -- apply Hy in Hj'. lia.
Qed.

Section RecurrenceFacts.
Context {D : DateLib}.

Lemma additionalStartTimes_eq (e : Event) :
  additionalStartTimes e
  = uniq_from {[ startTime (fields e) ]} (resolvedStartTimes e).
Proof.
  unfold additionalStartTimes, recurrenceStartTimes, slice1.
  rewrite uniq_cons. reflexivity.
Qed.

Lemma expandRecurringEvents_eq (e : Event) :
  expandRecurringEvents e
  = e :: map (generateRecurringEvent e) (additionalStartTimes e).
Proof. reflexivity. Qed.

(** C1. An event whose [recurrenceDates] is the empty list expands to
    exactly the one-element list holding the event itself. *)
Theorem expandRecurringEvents_no_recurrence (e : Event) :
  recurrenceDates (fields e) = [] → expandRecurringEvents e = [e].
Proof.
  intros Hnil. rewrite expandRecurringEvents_eq, additionalStartTimes_eq.
  unfold resolvedStartTimes. rewrite Hnil. reflexivity.
Qed.

Lemma expandRecurringEvents_length (e : Event) :
  length (expandRecurringEvents e) = S (size (distinctOtherStartTimes e)).
Proof.
  rewrite expandRecurringEvents_eq. simpl. rewrite length_map.
  rewrite additionalStartTimes_eq, uniq_from_length. reflexivity.
Qed.

(** C2. The expansion has at most one entry more than there are distinct
    resolved recurrence start times other than the original start time:
    the original start time is never among the start times an occurrence
    is generated from, and no start time is used twice. *)
Theorem expandRecurringEvents_deduplicates (e : Event) :
  (length (expandRecurringEvents e) ≤ 1 + size (distinctOtherStartTimes e))%nat
  ∧ (startTime (fields e) ∉ additionalStartTimes e)
  ∧ NoDup (additionalStartTimes e).
Proof.
  split; [rewrite expandRecurringEvents_length; lia|]. split.
  - rewrite additionalStartTimes_eq, uniq_from_elem. set_solver.
  - rewrite additionalStartTimes_eq. apply uniq_from_NoDup.
Qed.

(** C3, as the code has it.  The expansion is never empty and begins with
    the original event, followed by one derived occurrence per
    de-duplicated recurrence start time other than the original one;
    the occurrences come in the order in which their start times first
    appear among the resolved [recurrenceDates] (not in calendar order). *)
Theorem expandRecurringEvents_order (e : Event) :
  expandRecurringEvents e ≠ []
  ∧ expandRecurringEvents e
    = e :: map (generateRecurringEvent e) (additionalStartTimes e)
  ∧ NoDup (additionalStartTimes e)
  ∧ (∀ r, r ∈ additionalStartTimes e
          ↔ r ∈ resolvedStartTimes e ∧ r ≠ startTime (fields e))
  ∧ (∀ (i j : nat) x y,
       additionalStartTimes e !! i = Some x →
       additionalStartTimes e !! j = Some y → (i < j)%nat →
       ∃ i', resolvedStartTimes e !! i' = Some x
             ∧ ∀ j', resolvedStartTimes e !! j' = Some y → (i' < j')%nat).
Proof.
  split; [done|]. split; [reflexivity|].
  rewrite additionalStartTimes_eq. split; [apply uniq_from_NoDup|]. split.
  - intros r. rewrite uniq_from_elem. set_solver.
  - apply uniq_from_order.
Qed.

Lemma derived_occurrence (e o : Event) :
  o ∈ slice1 (expandRecurringEvents e) →
  ∃ r, r ∈ additionalStartTimes e ∧ o = generateRecurringEvent e r.
Proof.
  rewrite expandRecurringEvents_eq. unfold slice1. simpl. rewrite drop_0.
  intros (r & -> & Hr)%list_elem_of_fmap. eauto.
Qed.

(** C5. Every derived occurrence comes from one recurrence start time
    [r]: its [startTime] is [r] in the storage format, its [id] is the
    original id followed by [-recurrence-] and [r] in the European
    display format, and its [recurrenceDates] is the original start time
    in the display format followed by the original [recurrenceDates]. *)
Theorem derived_occurrence_identity (e o : Event) :
  o ∈ slice1 (expandRecurringEvents e) →
  ∃ r, r ∈ additionalStartTimes e
       ∧ startTime (fields o) = formatDate r FORMAT_CONTENTFUL_ISO
       ∧ id o = (id e ++ "-recurrence-"
                       ++ formatDate r FORMAT_EUROPEAN_DATE)%string
       ∧ recurrenceDates (fields o)
         = (formatDate (startTime (fields e)) FORMAT_EUROPEAN_DATE)
             :: recurrenceDates (fields e).
Proof.
  intros (r & Hr & ->)%derived_occurrence. exists r. done.
Qed.
End RecurrenceFacts.

Section Frame.
Context {D : DateLib}.

(** The record update of [generateRecurringEvent] is what Ramda's deep
    merge computes on the run-time objects. *)
Lemma generateRecurringEvent_refines_merge (e : Event) (r : string) :
  eventToJs (generateRecurringEvent e r)
  = mergeDeepRight (eventToJs e)
      (recurrencePatch
         (formatDate r FORMAT_CONTENTFUL_ISO)
         (formatDate
            (addToDate (endTime (fields e))
               (diffDate r (startTime (fields e))))
            FORMAT_CONTENTFUL_ISO)
         (formatEuropeanDate (startTime (fields e))
            :: recurrenceDates (fields e))
         (id e ++ "-recurrence-" ++ formatEuropeanDate r)).
Proof. reflexivity. Qed.

(** C6. The first element of the expansion is the original event, and
    every derived occurrence agrees with the original on every part other
    than [id], [fields.startTime], [fields.endTime] and
    [fields.recurrenceDates]. *)
Theorem derived_occurrence_frame (e : Event) :
  expandRecurringEvents e !! 0%nat = Some e
  ∧ ∀ o, o ∈ slice1 (expandRecurringEvents e) →
      contentType o = contentType e
      ∧ locale o = locale e
      ∧ revision o = revision e
      ∧ name (fields o) = name (fields e)
      ∧ eventCategories (fields o) = eventCategories (fields e)
      ∧ audience (fields o) = audience (fields e)
      ∧ location (fields o) = location (fields e)
      ∧ addressLine1 (fields o) = addressLine1 (fields e)
      ∧ addressLine2 (fields o) = addressLine2 (fields e)
      ∧ city (fields o) = city (fields e)
      ∧ postcode (fields o) = postcode (fields e)
      ∧ locationName (fields o) = locationName (fields e)
      ∧ eventPriceLow (fields o) = eventPriceLow (fields e)
      ∧ eventPriceHigh (fields o) = eventPriceHigh (fields e)
      ∧ accessibilityOptions (fields o) = accessibilityOptions (fields e)
      ∧ eventDescription (fields o) = eventDescription (fields e)
      ∧ accessibilityDetails (fields o) = accessibilityDetails (fields e)
      ∧ email (fields o) = email (fields e)
      ∧ phone (fields o) = phone (fields e)
      ∧ ticketingUrl (fields o) = ticketingUrl (fields e)
      ∧ venueDetails (fields o) = venueDetails (fields e)
      ∧ individualEventPicture (fields o) = individualEventPicture (fields e)
      ∧ eventsListPicture (fields o) = eventsListPicture (fields e)
      ∧ performances (fields o) = performances (fields e).
Proof.
  split; [reflexivity|].
  intros o (r & _ & ->)%derived_occurrence. repeat split.
Qed.
End Frame.

Section Duration.
Context {D : DateLib}.
Variable instantOf : string → option Z.
Variable representable : Z → Prop.
Hypothesis format_keeps_instant : ∀ t z,
  instantOf t = Some z →
  instantOf (formatDate t FORMAT_CONTENTFUL_ISO) = Some z.
Hypothesis add_diff_shifts : ∀ t a b zt za zb,
  instantOf t = Some zt → instantOf a = Some za → instantOf b = Some zb →
  representable (zt + (za - zb))%Z →
  instantOf (addToDate t (diffDate a b)) = Some (zt + (za - zb))%Z.

(** C4. Every derived occurrence starts at its recurrence start time [r]
    and ends at the original end time moved by the difference between
    [r] and the original start time.  Under the two laws of the date
    library stated above (formatting keeps the instant; adding a
    difference moves the instant by it), the occurrence ends as long
    after its start as the original does. *)
Theorem derived_occurrence_duration (e o : Event) :
  o ∈ slice1 (expandRecurringEvents e) →
  ∃ r, r ∈ additionalStartTimes e
     ∧ startTime (fields o) = formatDate r FORMAT_CONTENTFUL_ISO
     ∧ endTime (fields o)
       = formatDate
           (addToDate (endTime (fields e))
              (diffDate r (startTime (fields e))))
           FORMAT_CONTENTFUL_ISO
     ∧ ∀ zs ze zr,
         instantOf (startTime (fields e)) = Some zs →
         instantOf (endTime (fields e)) = Some ze →
         instantOf r = Some zr →
         representable (ze + (zr - zs))%Z →
         instantOf (startTime (fields o)) = Some zr
         ∧ instantOf (endTime (fields o)) = Some (zr + (ze - zs))%Z.
Proof.
  intros (r & Hr & ->)%derived_occurrence. exists r.
  split; [done|]. split; [done|]. split; [done|].
  intros zs ze zr Hs He Hzr Hrep. simpl. split.
  - by apply format_keeps_instant.
  - apply format_keeps_instant.
    rewrite (add_diff_shifts _ _ _ ze zr zs) by done. f_equal. lia.
Qed.
End Duration.

Module DateModelFacts.
Import DateModel.
Local Open Scope Z_scope.

Lemma digitValue_digitChar d :
  0 <= d <= 9 → digitValue (digitChar d) = Some d.
Proof.
  intros Hd.
  assert (d = 0 ∨ d = 1 ∨ d = 2 ∨ d = 3 ∨ d = 4 ∨ d = 5 ∨ d = 6 ∨ d = 7
          ∨ d = 8 ∨ d = 9) as Hcases by lia.
  repeat (destruct Hcases as [->|Hcases]; [reflexivity|]).
  subst d. reflexivity.
Qed.

Lemma num2_digits n :
  0 <= n <= 99 →
  num2 (digitChar (n / 10)) (digitChar (n mod 10)) = Some n.
Proof.
  intros Hn. unfold num2.
  rewrite !digitValue_digitChar by (Z.div_mod_to_equations; lia).
  f_equal. Z.div_mod_to_equations; lia.
Qed.

Lemma num4_digits n :
  0 <= n <= 9999 →
  num4 (digitChar (n / 1000)) (digitChar ((n / 100) mod 10))
       (digitChar ((n mod 100) / 10)) (digitChar ((n mod 100) mod 10))
  = Some n.
Proof.
  intros Hn. unfold num4, num2.
  rewrite !digitValue_digitChar by (Z.div_mod_to_equations; lia).
  f_equal. Z.div_mod_to_equations; lia.
Qed.

Lemma daysInMonth_le_31 y m : daysInMonth y m <= 31.
Proof.
  unfold daysInMonth.
  repeat match goal with |- context [if ?b then _ else _] => destruct b end;
    lia.
Qed.

Lemma validDateTime_bounds dt :
  validDateTime dt = true →
  0 <= dt_year dt <= 9999 ∧ 1 <= dt_month dt <= 12
  ∧ 1 <= dt_day dt <= 31 ∧ 0 <= dt_hour dt <= 23
  ∧ 0 <= dt_minute dt <= 59.
Proof.
  unfold validDateTime. rewrite !andb_true_iff, !Z.leb_le.
  pose proof (daysInMonth_le_31 (dt_year dt) (dt_month dt)). lia.
Qed.

(** Printing a valid date in the storage format and reading it back
    gives the same date. *)
Lemma parseISO_printISO dt :
  validDateTime dt = true → parseISO (printISO dt) = Some dt.
Proof.
  intros Hvalid. pose proof (validDateTime_bounds dt Hvalid) as Hb.
  destruct dt as [y m d h n]. simpl in Hb.
  unfold printISO, pad4, pad2, parseISO. cbn [dt_year dt_month dt_day dt_hour dt_minute].
  change (Ascii.eqb "-" "-") with true.
  change (Ascii.eqb "T" "T") with true.
  change (Ascii.eqb ":" ":") with true.
  change (zoneSuffix "+00:00") with true.
  cbn [andb].
  rewrite num4_digits, !num2_digits by lia.
  by rewrite Hvalid.
Qed.

Lemma parseISO_valid s dt : parseISO s = Some dt → validDateTime dt = true.
Proof.
  unfold parseISO.
  repeat (destruct s as [|? s]; [discriminate|]).
  repeat match goal with
    | |- (if ?b then _ else _) = _ → _ =>
        destruct b eqn:?; [|discriminate]
    | |- match ?x with Some _ => _ | None => _ end = _ → _ =>
        destruct x; [|discriminate]
    end.
  by intros [= <-].
Qed.

(** *** The calendar *)

Lemma daysFromCivil_civilFromDays n :
  let '(y, m, d) := civilFromDays n in daysFromCivil y m d = n.
Proof.
  unfold civilFromDays, daysFromCivil. cbv zeta.
  repeat match goal with |- context [if ?b then _ else _] =>
    let E := fresh in destruct b eqn:E end;
  Z.div_mod_to_equations; lia.
Qed.

Lemma yearOfEra_bounds doe :
  0 <= doe < 146097 →
  let yoe := (doe - doe / 1460 + doe / 36524 - doe / 146096) / 365 in
  0 <= yoe <= 399
  ∧ 0 <= doe - (365 * yoe + yoe / 4 - yoe / 100) <= 365
  ∧ (doe - (365 * yoe + yoe / 4 - yoe / 100) = 365 →
     yoe mod 4 = 3 ∧ (yoe mod 100 ≠ 99 ∨ yoe = 399)).
Proof. intros H yoe. subst yoe. Z.div_mod_to_equations. lia. Qed.

Lemma monthDay_bounds doy :
  0 <= doy <= 365 →
  let mp := (5 * doy + 2) / 153 in
  let d := doy - (153 * mp + 2) / 5 + 1 in
  0 <= mp <= 11 ∧ 1 <= d <= 31
  ∧ (mp = 1 ∨ mp = 3 ∨ mp = 6 ∨ mp = 8 → d <= 30)
  ∧ (mp = 11 → d <= 29 ∧ (d = 29 → doy = 365)).
Proof. intros H mp d. subst mp d. Z.div_mod_to_equations. lia. Qed.

Lemma isLeapYear_after yoe era :
  0 <= yoe <= 399 → yoe mod 4 = 3 → yoe mod 100 ≠ 99 ∨ yoe = 399 →
  isLeapYear (yoe + era * 400 + 1) = true.
Proof.
  intros Hy H4 H100. unfold isLeapYear.
  rewrite orb_true_iff, andb_true_iff, negb_true_iff, !Z.eqb_eq, Z.eqb_neq.
  Z.div_mod_to_equations. lia.
Qed.

Lemma civilFromDays_valid n :
  let '(y, m, d) := civilFromDays n in
  1 <= m <= 12 ∧ 1 <= d <= daysInMonth y m.
Proof.
  unfold civilFromDays. cbv zeta.
  set (era := (n + 719468) / 146097).
  set (doe := n + 719468 - era * 146097).
  assert (0 <= doe < 146097) as Hdoe
    by (subst doe era; Z.div_mod_to_equations; lia).
  pose proof (yearOfEra_bounds doe Hdoe) as Hy. cbv zeta in Hy.
  set (yoe := (doe - doe / 1460 + doe / 36524 - doe / 146096) / 365) in *.
  destruct Hy as (Hyoe & Hdoy & Hleap).
  set (doy := doe - (365 * yoe + yoe / 4 - yoe / 100)) in *.
  pose proof (monthDay_bounds doy Hdoy) as Hm. cbv zeta in Hm.
  set (mp := (5 * doy + 2) / 153) in *.
  set (d := doy - (153 * mp + 2) / 5 + 1) in *.
  destruct Hm as (Hmp & Hd & H30 & H29).
  unfold daysInMonth.
  destruct (mp <? 10) eqn:Hlt;
    [apply Z.ltb_lt in Hlt|apply Z.ltb_ge in Hlt].
  - destruct (mp + 3 <=? 2) eqn:E; [apply Z.leb_le in E; lia|].
    destruct (mp + 3 =? 2) eqn:E2; [apply Z.eqb_eq in E2; lia|].
    destruct (_ || _) eqn:E3; [|lia].
    rewrite !orb_true_iff, !Z.eqb_eq in E3. lia.
  - destruct (mp - 9 <=? 2) eqn:E; [|apply Z.leb_gt in E; lia].
    destruct (mp - 9 =? 2) eqn:E2;
      [apply Z.eqb_eq in E2|apply Z.eqb_neq in E2].
    + assert (mp = 11) as H11 by lia. destruct (H29 H11) as [Hle Heq].
      destruct (isLeapYear _) eqn:Hl; [lia|].
      destruct (Z.eq_dec d 29) as [Hd29|]; [|lia].
      destruct (Hleap (Heq Hd29)) as [H4 H100].
      rewrite isLeapYear_after in Hl by done. discriminate.
    + destruct (_ || _) eqn:E3; [|lia].
      rewrite !orb_true_iff, !Z.eqb_eq in E3. lia.
Qed.

Lemma civilFromDays_year n :
  0 <= n < 2777778 →
  let '(y, m, d) := civilFromDays n in 0 <= y <= 9999.
Proof.
  intros Hn. unfold civilFromDays. cbv zeta.
  set (era := (n + 719468) / 146097).
  set (doe := n + 719468 - era * 146097).
  assert (0 <= doe < 146097 ∧ 4 <= era <= 23) as [Hdoe Hera]
    by (subst doe era; Z.div_mod_to_equations; lia).
  pose proof (yearOfEra_bounds doe Hdoe) as Hy. cbv zeta in Hy.
  destruct Hy as (Hyoe & _).
  destruct (_ <=? 2); lia.
Qed.

Lemma validDateTime_ofMinutes w :
  representable w → validDateTime (ofMinutes w) = true.
Proof.
  intros Hw. unfold representable in Hw. unfold ofMinutes.
  pose proof (civilFromDays_valid (w / 1440)) as Hv.
  pose proof (civilFromDays_year (w / 1440)) as Hy.
  destruct (civilFromDays (w / 1440)) as [[y m] d].
  unfold validDateTime. simpl.
  rewrite !andb_true_iff, !Z.leb_le.
  assert (0 <= w / 1440 < 2777778) as Hdays
    by (Z.div_mod_to_equations; lia).
  specialize (Hy Hdays).
  assert (0 <= w mod 1440 < 1440) by (Z.div_mod_to_equations; lia).
  repeat split; try lia; Z.div_mod_to_equations; lia.
Qed.

Lemma toMinutes_ofMinutes w : toMinutes (ofMinutes w) = w.
Proof.
  unfold toMinutes, ofMinutes.
  pose proof (daysFromCivil_civilFromDays (w / 1440)) as Hd.
  destruct (civilFromDays (w / 1440)) as [[y m] d]. simpl. rewrite Hd.
  Z.div_mod_to_equations. lia.
Qed.

(** *** The laws the duration argument relies on, for the model *)

Lemma instant_toFormat t z :
  instant t = Some z →
  instant (toFormat t FORMAT_CONTENTFUL_ISO) = Some z.
Proof.
  unfold instant, toFormat, render.
  destruct (parseISO t) as [dt|] eqn:Hp; [|discriminate].
  intros [= <-]. rewrite (parseISO_valid _ _ Hp).
  by rewrite parseISO_printISO by exact (parseISO_valid _ _ Hp).
Qed.

Lemma instant_add_diff t a b zt za zb :
  instant t = Some zt → instant a = Some za → instant b = Some zb →
  representable (zt + (za - zb)) →
  instant (add t (diff a b)) = Some (zt + (za - zb)).
Proof.
  unfold instant, add, diff, render.
  destruct (parseISO t) as [dt|]; [|discriminate].
  destruct (parseISO a) as [da|]; [|discriminate].
  destruct (parseISO b) as [db|]; [|discriminate].
  intros [= <-] [= <-] [= <-] Hrep.
  rewrite (validDateTime_ofMinutes _ Hrep).
  rewrite parseISO_printISO by exact (validDateTime_ofMinutes _ Hrep).
  simpl. by rewrite toMinutes_ofMinutes.
Qed.
End DateModelFacts.

Lemma bind_ok {A B : Type} (m : decode.Result A) (k : A → decode.Result B) b :
  m ≫= k = decode.Ok b → ∃ a, m = decode.Ok a ∧ k a = decode.Ok b.
Proof. destruct m as [a|e]; simpl; [eauto|discriminate]. Qed.

Lemma under_ok {A : Type} seg (r : decode.Result A) a :
  decode.under seg r = decode.Ok a → r = decode.Ok a.
Proof. destruct r; simpl; congruence. Qed.

Lemma under_err {A : Type} seg (r : decode.Result A) e :
  decode.under seg r = decode.Err e → decode.path e ≠ [].
Proof. destruct r; simpl; [discriminate|]. by intros [= <-]. Qed.

Lemma field_ok {A : Type} k (d : Decoder A) v a :
  decode.field k d v = decode.Ok a →
  ∃ x, jsonAt [k] v = Some x ∧ d x = decode.Ok a.
Proof.
  unfold decode.field. simpl. destruct v; try discriminate.
  destruct (getMember k members) as [x|]; [|discriminate].
  intros H%under_ok. eauto.
Qed.

Lemma field_err {A : Type} k (d : Decoder A) v e :
  decode.field k d v = decode.Err e → decode.path e ≠ [].
Proof.
  unfold decode.field. destruct v; try (by intros [= <-]).
  destruct (getMember k members); [apply under_err|by intros [= <-]].
Qed.

Lemma at_ok {A : Type} keys (d : Decoder A) v a :
  decode.at_ keys d v = decode.Ok a →
  ∃ x, jsonAt keys v = Some x ∧ d x = decode.Ok a.
Proof.
  revert v. induction keys as [|k rest IH]; intros v; simpl.
  - eauto.
  - intros (x & Hx & Hd)%field_ok. simpl in Hx.
    destruct v; try discriminate.
    destruct (getMember k members); [|discriminate].
    injection Hx as ->. by apply IH.
Qed.

Lemma at_err {A : Type} keys (d : Decoder A) v e :
  keys ≠ [] → decode.at_ keys d v = decode.Err e → decode.path e ≠ [].
Proof. destruct keys; [done|]. intros _. simpl. apply field_err. Qed.

Lemma map_err {A B : Type} (f : A → B) (d : Decoder A) v e :
  decode.map f d v = decode.Err e → d v = decode.Err e.
Proof. unfold decode.map. destruct (d v); congruence. Qed.

Lemma value_ok literal v s :
  decode.value literal v = decode.Ok s → v = JString literal ∧ s = literal.
Proof.
  unfold decode.value. destruct v; try discriminate.
  destruct (String.eqb s0 literal) eqn:E; [|discriminate].
  apply String.eqb_eq in E. intros [= <-]. by subst.
Qed.

Lemma oneOf_values_ok names v s :
  decode.oneOf (List.map decode.value names) v = decode.Ok s →
  v = JString s ∧ s ∈ names.
Proof.
  induction names as [|n rest IH]; simpl; [discriminate|].
  destruct (decode.value n v) as [s'|] eqn:E.
  - intros [= ->]. apply value_ok in E as [-> ->]. split; [done|left].
  - intros [-> Hin]%IH. split; [done|by right].
Qed.

Lemma decodeEventCategoryName_ok v s :
  decodeEventCategoryName v = decode.Ok s →
  v = JString s ∧ s ∈ eventCategoryNames.
Proof. apply oneOf_values_ok. Qed.

Lemma arrayFrom_ok {A : Type} (d : Decoder A) i items l :
  decode.arrayFrom d i items = decode.Ok l →
  Forall2 (fun x a => d x = decode.Ok a) items l.
Proof.
  revert i l. induction items as [|x rest IH]; intros i l; simpl.
  - intros [= <-]. constructor.
  - destruct (d x) as [a|] eqn:E; [|discriminate].
    destruct (decode.arrayFrom d (S i) rest) as [others|] eqn:E2;
      [|discriminate].
    intros [= <-]. constructor; [done|]. by eapply IH.
Qed.

Lemma categories_ok items l :
  decode.array decodeEventCategoryName (JArray items) = decode.Ok l →
  items = List.map JString l ∧ Forall (.∈ eventCategoryNames) l.
Proof.
  simpl. intros H%arrayFrom_ok.
  induction H as [|x s items l Hx _ [IH1 IH2]]; [done|].
  apply decodeEventCategoryName_ok in Hx as [-> Hin]. simpl.
  split; [by f_equal|by constructor].
Qed.

Section DecodeFacts.
Variable decodeFieldRef : Decoder FieldRef.

Lemma decodeEvent_fields locale v e :
  decodeEvent decodeFieldRef locale v = decode.Ok e →
  ∃ fv, jsonAt ["fields"] v = Some fv
        ∧ decodeEventFields decodeFieldRef locale fv = decode.Ok (fields e).
Proof.
  unfold decodeEvent.
  intros (ct & _ & H)%bind_ok. apply bind_ok in H as (i & _ & H).
  apply bind_ok in H as (l & _ & H). apply bind_ok in H as (r & _ & H).
  apply bind_ok in H as (f & Hf & H). injection H as <-. simpl.
  by apply field_ok in Hf.
Qed.

Lemma decodeEventFields_categories locale fv f :
  decodeEventFields decodeFieldRef locale fv = decode.Ok f →
  decode.at_ ["eventCategories"; locale]
    (decode.array decodeEventCategoryName) fv
  = decode.Ok (eventCategories f).
Proof.
  unfold decodeEventFields.
  intros (n & _ & H)%bind_ok. apply bind_ok in H as (c & Hc & H).
  rewrite Hc. f_equal.
  repeat (apply bind_ok in H as (? & _ & H)).
  by injection H as <-.
Qed.

(** C7. When the [eventCategories] array of the record at the locale
    holds a string outside [eventCategoryNames], [decodeEvent] fails;
    and whenever it succeeds, the decoded categories are exactly the
    strings of that array, all of them in the enumeration: none was
    dropped. *)
Theorem decodeEvent_rejects_unknown_category locale v items :
  jsonAt ["fields"; "eventCategories"; locale] v = Some (JArray items) →
  (∀ s, JString s ∈ items → s ∉ eventCategoryNames →
        ∃ err, decodeEvent decodeFieldRef locale v = decode.Err err)
  ∧ (∀ e, decodeEvent decodeFieldRef locale v = decode.Ok e →
          items = List.map JString (eventCategories (fields e))
          ∧ Forall (.∈ eventCategoryNames) (eventCategories (fields e))).
Proof.
  intros Hitems.
  assert (∀ e, decodeEvent decodeFieldRef locale v = decode.Ok e →
            items = List.map JString (eventCategories (fields e))
            ∧ Forall (.∈ eventCategoryNames) (eventCategories (fields e)))
    as Hok.
  { intros e (fv & Hfv & Hf)%decodeEvent_fields.
    apply decodeEventFields_categories, at_ok in Hf as (x & Hx & Hd).
    assert (x = JArray items) as ->.
    { simpl in Hitems, Hfv, Hx. destruct v; try discriminate.
      destruct (getMember "fields" members); [|discriminate].
      injection Hfv as ->. congruence. }
    by apply categories_ok. }
  split; [|exact Hok].
  intros s Hin Hout.
  destruct (decodeEvent decodeFieldRef locale v) as [e|err] eqn:E; [|eauto].
  destruct (Hok e eq_refl) as [-> Hall]. exfalso. apply Hout.
  apply list_elem_of_fmap in Hin as (c & [= ->] & Hc).
  rewrite Forall_forall in Hall. by apply Hall.
Qed.

Lemma decodeEventFields_succeeds locale fv :
  succeeds (decodeEventFields decodeFieldRef locale) fv
  = forallb (fun check => check fv) (fieldChecks decodeFieldRef locale).
Proof.
  unfold decodeEventFields, fieldChecks, succeeds. cbn [forallb].
  repeat match goal with
    | |- _ = isOk ?r && _ =>
        destruct r; cbn [isOk mbind decode.result_bind andb]; [|reflexivity]
    end.
  reflexivity.
Qed.

Lemma decodeEvent_succeeds locale v :
  succeeds (decodeEvent decodeFieldRef locale) v
  = forallb (fun check => check v) sysChecks
    && succeeds (decode.field "fields"
                   (decodeEventFields decodeFieldRef locale)) v.
Proof.
  unfold decodeEvent, sysChecks, succeeds, decode.succeed. cbn [forallb].
  repeat match goal with
    | |- _ = isOk ?r && _ && _ =>
        destruct r; cbn [isOk mbind decode.result_bind andb]; [|reflexivity]
    end.
  by destruct (decode.field _ _ v).
Qed.

Lemma decodeEvent_error_path locale v err :
  decodeEvent decodeFieldRef locale v = decode.Err err →
  decode.path err ≠ [].
Proof.
  unfold decodeEvent.
  destruct (decode.at_ _ (decode.value _) v) eqn:E1;
    [|intros [= <-]; by eapply at_err, E1].
  cbn [mbind decode.result_bind].
  destruct (decode.at_ _ decode.string v) eqn:E2;
    [|intros [= <-]; by eapply at_err, E2].
  cbn [mbind decode.result_bind]. unfold decode.succeed. cbn [mbind decode.result_bind].
  destruct (decode.at_ _ decode.number v) eqn:E3;
    [|intros [= <-]; by eapply at_err, E3].
  cbn [mbind decode.result_bind].
  destruct (decode.field _ _ v) eqn:E4;
    [discriminate|intros [= <-]; by eapply field_err, E4].
Qed.

(** [decodeEvent] succeeds exactly when every key of its two shapes
    decodes; when it fails the error carries a non-empty path; and it
    fails whenever [sys.contentType.sys.id] is not the string [event]. *)
Lemma decodeEvent_shapes_all_or_nothing locale v :
  ((∃ e, decodeEvent decodeFieldRef locale v = decode.Ok e)
   ↔ forallb (fun check => check v) sysChecks = true
     ∧ ∃ fv, jsonAt ["fields"] v = Some fv
             ∧ forallb (fun check => check fv)
                 (fieldChecks decodeFieldRef locale) = true)
  ∧ (∀ err, decodeEvent decodeFieldRef locale v = decode.Err err →
            decode.path err ≠ [])
  ∧ (jsonAt ["sys"; "contentType"; "sys"; "id"] v ≠ Some (JString "event") →
     ∃ err, decodeEvent decodeFieldRef locale v = decode.Err err).
Proof.
  assert ((∃ e, decodeEvent decodeFieldRef locale v = decode.Ok e)
          ↔ forallb (fun check => check v) sysChecks = true
            ∧ ∃ fv, jsonAt ["fields"] v = Some fv
                    ∧ forallb (fun check => check fv)
                        (fieldChecks decodeFieldRef locale) = true) as Hiff.
  { pose proof (decodeEvent_succeeds locale v) as Hs. split.
    - intros [e He]. unfold succeeds at 1 in Hs. rewrite He in Hs.
      symmetry in Hs. apply andb_true_iff in Hs as [Hsys Hf].
      split; [done|]. unfold succeeds in Hf.
      destruct (decode.field _ _ v) as [f|] eqn:E; [|discriminate].
      apply field_ok in E as (fv & Hfv & Hd). exists fv. split; [done|].
      rewrite <- decodeEventFields_succeeds. unfold succeeds. by rewrite Hd.
    - intros (Hsys & fv & Hfv & Hchecks).
      rewrite <- decodeEventFields_succeeds in Hchecks.
      assert (succeeds (decode.field "fields"
                (decodeEventFields decodeFieldRef locale)) v = true) as Hf.
      { unfold succeeds, decode.field in *. simpl in Hfv.
        destruct v; try discriminate.
        destruct (getMember "fields" members); [|discriminate].
        injection Hfv as ->.
        by destruct (decodeEventFields decodeFieldRef locale fv). }
      rewrite Hsys, Hf in Hs. unfold succeeds in Hs.
      destruct (decodeEvent decodeFieldRef locale v); [eauto|discriminate]. }
  split; [exact Hiff|]. split; [apply decodeEvent_error_path|].
  intros Hct.
  destruct (decodeEvent decodeFieldRef locale v) as [e|err] eqn:E; [|eauto].
  exfalso. apply Hct. unfold decodeEvent in E.
  apply bind_ok in E as (ct & Hc & _).
  apply at_ok in Hc as (x & Hx & [-> _]%value_ok). exact Hx.
Qed.
End DecodeFacts.

(** *** [toggleTagFilter] *)

Lemma toggleTagFilter_result (h : Heap) (s : SetRef) (v : string)
    (members : gset string) :
  h !! s = Some members →
  let r := fresh (dom h) in
  toggleTagFilter s v h
  = Some (r, <[r := if decide (v ∈ members) then members ∖ {[ v ]}
                    else members ∪ {[ v ]}]> h).
Proof.
  intros Hs r. unfold toggleTagFilter, spread, newSet. rewrite Hs. simpl.
  fold r. unfold setDelete. rewrite lookup_insert_eq. simpl.
  rewrite list_to_set_elements_L.
  destruct (decide (v ∈ members)) as [Hin|Hout].
  - rewrite bool_decide_eq_true_2 by done. simpl.
    by rewrite insert_insert_eq.
  - rewrite bool_decide_eq_false_2 by done. simpl.
    unfold setAdd. rewrite lookup_insert_eq. simpl.
    rewrite !insert_insert_eq. do 3 f_equal. set_solver.
Qed.

(** C10. [toggleTagFilter] returns a new [Set] that holds the selected
    values without [sectionValue] when it was selected and with it when it
    was not; the [Set] passed in and every other live [Set] are unchanged;
    toggling the same value on the result gives a [Set] equal to the one
    first passed in. *)
Theorem toggleTagFilter_toggles (h : Heap) (s : SetRef) (v : string)
    (members : gset string) :
  h !! s = Some members →
  ∃ r h',
    toggleTagFilter s v h = Some (r, h')
    ∧ h !! r = None
    ∧ h' !! r = Some (if decide (v ∈ members) then members ∖ {[ v ]}
                      else members ∪ {[ v ]})
    ∧ (∀ l, l ≠ r → h' !! l = h !! l)
    ∧ h' !! s = Some members
    ∧ ∃ r2 h2,
        toggleTagFilter r v h' = Some (r2, h2)
        ∧ h2 !! r2 = Some members
        ∧ h2 !! s = Some members.
Proof.
  intros Hs. set (r := fresh (dom h)).
  assert (h !! r = None) as Hfresh.
  { apply not_elem_of_dom. apply is_fresh. }
  assert (r ≠ s) as Hsr.
  { intros Heq. assert (h !! s = None) by (rewrite <- Heq; exact Hfresh).
    congruence. }
  exists r, (<[r := if decide (v ∈ members) then members ∖ {[ v ]}
                     else members ∪ {[ v ]}]> h).
  split; [by apply toggleTagFilter_result|]. split; [done|].
  split; [by rewrite lookup_insert_eq|].
  split; [intros l Hl; by rewrite lookup_insert_ne|].
  split; [by rewrite lookup_insert_ne|].
  set (h' := <[r := _]> h).
  assert (h' !! r = Some (if decide (v ∈ members) then members ∖ {[ v ]}
                          else members ∪ {[ v ]})) as Hr
    by apply lookup_insert_eq.
  set (r2 := fresh (dom h')).
  assert (h' !! r2 = None) as Hfresh2.
  { apply not_elem_of_dom. apply is_fresh. }
  assert (h' !! s = Some members) as Hs'.
  { unfold h'. by rewrite lookup_insert_ne. }
  eexists r2, _. split; [by apply toggleTagFilter_result|].
  split.
  - rewrite lookup_insert_eq. f_equal.
    destruct (decide (v ∈ members)) as [Hin|Hout].
    + destruct (decide (v ∈ members ∖ {[ v ]})); [set_solver|].
      apply set_eq. intros x. destruct (decide (x = v)); set_solver.
    + destruct (decide (v ∈ members ∪ {[ v ]})); [|set_solver].
      set_solver.
  - rewrite lookup_insert_ne; [exact Hs'|].
    intros Heq. assert (h' !! s = None) by (rewrite <- Heq; exact Hfresh2).
    congruence.
Qed.

#[local] Existing Instance DateModel.lib.

(** C3 as stated fails: for recurrence dates given out of calendar order
    the derived occurrences are not in chronological order. *)
Lemma expandRecurringEvents_not_chronological :
  ¬ chronological DateModel.instant
      (slice1 (expandRecurringEvents (D:=DateModel.lib) unsortedEvent)).
Proof.
  intros Hchron.
  specialize (Hchron 0%nat 1%nat
    (generateRecurringEvent (D:=DateModel.lib) unsortedEvent
       "2018-01-15T11:00+00:00")
    (generateRecurringEvent (D:=DateModel.lib) unsortedEvent
       "2018-01-13T11:00+00:00")
    25266900%Z 25264020%Z).
  assert (25266900 <= 25264020)%Z as Habs; [|lia].
  apply Hchron; [lia|vm_compute; reflexivity..].
Qed.

Lemma expandRecurringEvents_no_recurrence_witness :
  expandRecurringEvents (D:=DateModel.lib) singleEvent = [singleEvent].
Proof.
  apply (expandRecurringEvents_no_recurrence (D:=DateModel.lib) singleEvent).
  reflexivity.
Defined.

Lemma derived_occurrence_duration_witness :
  ∃ r, r ∈ additionalStartTimes (D:=DateModel.lib) sampleEvent
     ∧ startTime (fields (generateRecurringEvent (D:=DateModel.lib)
                            sampleEvent "2018-01-13T11:00+00:00"))
       = formatDate r FORMAT_CONTENTFUL_ISO
     ∧ endTime (fields (generateRecurringEvent (D:=DateModel.lib)
                          sampleEvent "2018-01-13T11:00+00:00"))
       = formatDate
           (addToDate (endTime (fields sampleEvent))
              (diffDate r (startTime (fields sampleEvent))))
           FORMAT_CONTENTFUL_ISO
     ∧ ∀ zs ze zr,
         DateModel.instant (startTime (fields sampleEvent)) = Some zs →
         DateModel.instant (endTime (fields sampleEvent)) = Some ze →
         DateModel.instant r = Some zr →
         DateModel.representable (ze + (zr - zs))%Z →
         DateModel.instant
           (startTime (fields (generateRecurringEvent (D:=DateModel.lib)
                                 sampleEvent "2018-01-13T11:00+00:00")))
         = Some zr
         ∧ DateModel.instant
             (endTime (fields (generateRecurringEvent (D:=DateModel.lib)
                                 sampleEvent "2018-01-13T11:00+00:00")))
           = Some (zr + (ze - zs))%Z.
Proof.
  apply (derived_occurrence_duration (D:=DateModel.lib)
           DateModel.instant DateModel.representable
           DateModelFacts.instant_toFormat DateModelFacts.instant_add_diff
           sampleEvent).
  apply (list_elem_of_lookup_2 _ 0%nat). vm_compute. reflexivity.
Defined.

Lemma derived_occurrence_identity_witness :
  ∃ r, r ∈ additionalStartTimes (D:=DateModel.lib) sampleEvent
       ∧ startTime (fields (generateRecurringEvent (D:=DateModel.lib)
                              sampleEvent "2018-01-15T11:00+00:00"))
         = formatDate r FORMAT_CONTENTFUL_ISO
       ∧ id (generateRecurringEvent (D:=DateModel.lib)
               sampleEvent "2018-01-15T11:00+00:00")
         = (id sampleEvent ++ "-recurrence-"
              ++ formatDate r FORMAT_EUROPEAN_DATE)%string
       ∧ recurrenceDates
           (fields (generateRecurringEvent (D:=DateModel.lib)
                      sampleEvent "2018-01-15T11:00+00:00"))
         = (formatDate (startTime (fields sampleEvent)) FORMAT_EUROPEAN_DATE)
             :: recurrenceDates (fields sampleEvent).
Proof.
  apply (derived_occurrence_identity (D:=DateModel.lib) sampleEvent).
  apply (list_elem_of_lookup_2 _ 1%nat). vm_compute. reflexivity.
Defined.

Lemma decodeEvent_rejects_unknown_category_witness :
  (∀ s, JString s ∈ [JString "Community"; JString "Jazz"] →
        s ∉ eventCategoryNames →
        ∃ err, decodeEvent decodeFieldRefModel "en-GB"
                 (sampleEntryWith ["Community"; "Jazz"]) = decode.Err err)
  ∧ (∀ e, decodeEvent decodeFieldRefModel "en-GB"
            (sampleEntryWith ["Community"; "Jazz"]) = decode.Ok e →
          [JString "Community"; JString "Jazz"]
          = List.map JString (eventCategories (fields e))
          ∧ Forall (.∈ eventCategoryNames) (eventCategories (fields e))).
Proof.
  apply (decodeEvent_rejects_unknown_category decodeFieldRefModel "en-GB"
           (sampleEntryWith ["Community"; "Jazz"])).
  reflexivity.
Defined.

Lemma toggleTagFilter_toggles_witness :
  ∃ r h',
    toggleTagFilter 1%positive "Music" sampleHeap = Some (r, h')
    ∧ sampleHeap !! r = None
    ∧ h' !! r = Some (if decide ("Music" ∈ ({[ "Music"; "Health" ]} : gset string))
                      then {[ "Music"; "Health" ]} ∖ {[ "Music" ]}
                      else {[ "Music"; "Health" ]} ∪ {[ "Music" ]})
    ∧ (∀ l, l ≠ r → h' !! l = sampleHeap !! l)
    ∧ h' !! 1%positive = Some {[ "Music"; "Health" ]}
    ∧ ∃ r2 h2,
        toggleTagFilter r "Music" h' = Some (r2, h2)
        ∧ h2 !! r2 = Some {[ "Music"; "Health" ]}
        ∧ h2 !! 1%positive = Some {[ "Music"; "Health" ]}.
Proof.
  apply (toggleTagFilter_toggles sampleHeap 1%positive "Music").
  reflexivity.
Defined.

(** * Further properties of the code *)

(** *** [String.prototype.split] and the components of a recurrence date *)

Lemma split_nonempty sep s : split sep s ≠ [].
Proof.
  destruct s as [|c rest]; simpl; [done|].
  destruct (Ascii.eqb c sep); [done|]. by destruct (split sep rest).
Qed.

Lemma split_free sep s : freeOf sep s = true → split sep s = [s].
Proof.
  induction s as [|c rest IH]; simpl; [done|].
  destruct (Ascii.eqb c sep); simpl; [discriminate|].
  intros Hfree. by rewrite IH.
Qed.

Lemma split_app sep s rest :
  freeOf sep s = true →
  split sep (s ++ String sep rest) = s :: split sep rest.
Proof.
  induction s as [|c s' IH]; simpl.
  - intros _. by rewrite Ascii.eqb_refl.
  - destruct (Ascii.eqb c sep); simpl; [discriminate|].
    intros Hfree. by rewrite IH.
Qed.

Section RecurrenceDates.
Context {D : DateLib}.

(** X1. A recurrence date [d/m/y] whose three components hold no [/] is
    resolved by setting the day to [d], the month to [m] and the year to
    [y] in the original start time: the components are read in the order
    day, month, year. *)
Theorem recurrenceDateToStartTime_components (start d m y : string) :
  freeOf "/" d = true → freeOf "/" m = true → freeOf "/" y = true →
  recurrenceDateToStartTime start (d ++ "/" ++ m ++ "/" ++ y)
  = formatDate
      (setDate start {| year := Some y; month := Some m; day := Some d |})
      FORMAT_CONTENTFUL_ISO.
Proof.
  intros Hd Hm Hy. unfold recurrenceDateToStartTime.
  change (d ++ "/" ++ m ++ "/" ++ y)%string
    with (d ++ String "/" (m ++ String "/" y))%string.
  rewrite (split_app "/" d) by done.
  rewrite (split_app "/" m) by done.
  rewrite (split_free "/" y) by done. reflexivity.
Qed.

(** X2. A recurrence date with fewer than three components leaves the
    missing ones undefined: a date without [/] sets only the day, a date
    [d/m] sets the day and the month; nothing is rejected here. *)
Theorem recurrenceDateToStartTime_missing_components (start d m : string) :
  freeOf "/" d = true → freeOf "/" m = true →
  recurrenceDateToStartTime start d
  = formatDate
      (setDate start {| year := None; month := None; day := Some d |})
      FORMAT_CONTENTFUL_ISO
  ∧ recurrenceDateToStartTime start (d ++ "/" ++ m)
    = formatDate
        (setDate start {| year := None; month := Some m; day := Some d |})
        FORMAT_CONTENTFUL_ISO.
Proof.
  intros Hd Hm. unfold recurrenceDateToStartTime. split.
  - rewrite (split_free "/" d) by done. reflexivity.
  - change (d ++ "/" ++ m)%string with (d ++ String "/" m)%string.
    rewrite (split_app "/" d) by done.
    rewrite (split_free "/" m) by done. reflexivity.
Qed.

(** X3. Components after the third are ignored: [d/m/y/rest] resolves to
    the same start time as [d/m/y], whatever [rest] is. *)
Theorem recurrenceDateToStartTime_extra_components
    (start d m y rest : string) :
  freeOf "/" d = true → freeOf "/" m = true → freeOf "/" y = true →
  recurrenceDateToStartTime start (d ++ "/" ++ m ++ "/" ++ y ++ "/" ++ rest)
  = recurrenceDateToStartTime start (d ++ "/" ++ m ++ "/" ++ y).
Proof.
  intros Hd Hm Hy.
  rewrite (recurrenceDateToStartTime_components start d m y) by done.
  unfold recurrenceDateToStartTime.
  change (d ++ "/" ++ m ++ "/" ++ y ++ "/" ++ rest)%string
    with (d ++ String "/" (m ++ String "/" (y ++ String "/" rest)))%string.
  rewrite (split_app "/" d) by done.
  rewrite (split_app "/" m) by done.
  rewrite (split_app "/" y) by done. reflexivity.
Qed.

Lemma uniq_from_sublist seen l : uniq_from seen l `sublist_of` l.
Proof.
  revert seen. induction l as [|a rest IH]; intros seen; simpl; [done|].
  destruct (decide (a ∈ seen)).
  - by apply sublist_cons.
  - by apply sublist_skip.
Qed.

Lemma uniq_from_full seen l :
  length (uniq_from seen l) = length l → uniq_from seen l = l.
Proof.
  revert seen. induction l as [|a rest IH]; intros seen; simpl; [done|].
  destruct (decide (a ∈ seen)).
  - intros Hlen.
    pose proof (sublist_length _ _ (uniq_from_sublist seen rest)). lia.
  - simpl. intros [= Hlen]. f_equal. by apply IH.
Qed.

Lemma uniq_from_id seen l :
  uniq_from seen l = l ↔ NoDup l ∧ ∀ x, x ∈ l → x ∉ seen.
Proof.
  revert seen. induction l as [|a rest IH]; intros seen; simpl.
  - split; [|done]. intros _. split; [constructor|]. intros x Hx.
    by apply elem_of_nil in Hx.
  - destruct (decide (a ∈ seen)) as [Hin|Hout].
    + split.
      * intros Heq. assert (length (uniq_from seen rest) = length (a :: rest))
          as Hlen by (by rewrite Heq).
        pose proof (sublist_length _ _ (uniq_from_sublist seen rest)).
        simpl in Hlen. lia.
      * intros [_ Hall]. exfalso. apply (Hall a); [left|done].
    + split.
      * intros [= Heq]. apply IH in Heq as [Hnd Hall]. split.
        -- constructor; [|done]. intros Ha. apply Hall in Ha. set_solver.
        -- intros x [->|Hx]%elem_of_cons; [done|].
           apply Hall in Hx. set_solver.
      * intros [Hnd Hall]. apply NoDup_cons in Hnd as [Ha Hnd].
        f_equal. apply IH. split; [done|].
        intros x Hx. specialize (Hall x (list_elem_of_further _ _ _ Hx)).
        assert (x ≠ a) by (intros ->; done). set_solver.
Qed.

(** X4. The expansion holds between one event and one more than there are
    recurrence dates, and it holds one occurrence per recurrence date
    exactly when the original start time and the resolved start times are
    pairwise different strings. *)
Theorem expandRecurringEvents_size (e : Event) :
  (1 ≤ length (expandRecurringEvents e)
     ≤ 1 + length (recurrenceDates (fields e)))%nat
  ∧ (length (expandRecurringEvents e)
       = (1 + length (recurrenceDates (fields e)))%nat
     ↔ NoDup (recurrenceStartTimes e)).
Proof.
  rewrite expandRecurringEvents_eq, additionalStartTimes_eq. simpl.
  rewrite length_map.
  assert (length (resolvedStartTimes e)
          = length (recurrenceDates (fields e))) as Hlen
    by apply length_map.
  assert (length (uniq_from {[startTime (fields e)]} (resolvedStartTimes e))
          ≤ length (resolvedStartTimes e))%nat as Hle.
  { apply sublist_length, uniq_from_sublist. }
  split; [lia|].
  unfold recurrenceStartTimes. fold (resolvedStartTimes e).
  rewrite NoDup_cons. split.
  - intros Heq.
    assert (uniq_from {[startTime (fields e)]} (resolvedStartTimes e)
            = resolvedStartTimes e) as Hid.
    { apply uniq_from_full. lia. }
    apply uniq_from_id in Hid as [Hnd Hall]. split; [|done].
    intros Hin. apply Hall in Hin. set_solver.
  - intros [Hnotin Hnd].
    assert (uniq_from {[startTime (fields e)]} (resolvedStartTimes e)
            = resolvedStartTimes e) as ->; [|lia].
    apply uniq_from_id. split; [done|]. intros x Hx. set_solver.
Qed.
End RecurrenceDates.

(** *** More on the decoder of [event.js] *)

(** X5. [decodeEventCategoryName] succeeds exactly on the eleven strings of
    [eventCategoryNames], and returns the string it was given. *)
Theorem decodeEventCategoryName_iff (v : Json) (s : string) :
  decodeEventCategoryName v = decode.Ok s
  ↔ v = JString s ∧ s ∈ eventCategoryNames.
Proof.
  split; [apply decodeEventCategoryName_ok|].
  intros [-> Hin]. unfold eventCategoryNames in Hin.
  repeat (apply elem_of_cons in Hin as [->|Hin]; [reflexivity|]).
  by apply elem_of_nil in Hin.
Qed.

(** X6. When the record has the field, [maybeFieldWithDefault] and
    [maybeField] never fail: a value that is missing for the locale, or
    that the inner decoder rejects, gives the default (for [maybeField],
    the absent value); otherwise the decoded value. *)
Theorem maybeFieldWithDefault_total {A : Type} (locale field : string)
    (decoder : Decoder A) (defaultValue : A)
    (members : list (string * Json)) (x : Json) :
  getMember field members = Some x →
  maybeFieldWithDefault locale field decoder defaultValue (JObject members)
  = decode.Ok (match decode.field locale decoder x with
               | decode.Ok a => a
               | decode.Err _ => defaultValue
               end)
  ∧ maybeField locale field decoder (JObject members)
    = decode.Ok (match decode.field locale decoder x with
                 | decode.Ok a => Some a
                 | decode.Err _ => None
                 end)
  ∧ (jsonAt [locale] x = None →
     maybeFieldWithDefault locale field decoder defaultValue (JObject members)
     = decode.Ok defaultValue).
Proof.
  intros Hx.
  assert (maybeField locale field decoder (JObject members)
          = decode.Ok (match decode.field locale decoder x with
                       | decode.Ok a => Some a
                       | decode.Err _ => None
                       end)) as Hmaybe.
  { unfold maybeField, decode.field at 1. rewrite Hx.
    unfold decode.maybe. by destruct (decode.field locale decoder x). }
  assert (maybeFieldWithDefault locale field decoder defaultValue
            (JObject members)
          = decode.Ok (match decode.field locale decoder x with
                       | decode.Ok a => a
                       | decode.Err _ => defaultValue
                       end)) as Hdefault.
  { unfold maybeFieldWithDefault, decode.map. rewrite Hmaybe.
    by destruct (decode.field locale decoder x). }
  split; [done|]. split; [done|].
  intros Hnone. rewrite Hdefault. f_equal.
  destruct (decode.field locale decoder x) as [a|] eqn:E; [|done].
  apply field_ok in E as (y & Hy & _). congruence.
Qed.

Lemma maybeFieldWithDefault_absent {A : Type} (locale field : string)
    (decoder : Decoder A) (defaultValue : A) (v : Json) (a : A) :
  maybeFieldWithDefault locale field decoder defaultValue v = decode.Ok a →
  jsonAt [field; locale] v = None → a = defaultValue.
Proof.
  unfold maybeFieldWithDefault, decode.map, maybeField.
  destruct (decode.field field _ v) as [m|] eqn:E; [|discriminate].
  intros [= <-] Hnone.
  apply field_ok in E as (x & Hx & Hm). unfold decode.maybe in Hm.
  destruct (decode.field locale decoder x) as [b|] eqn:E2.
  - apply field_ok in E2 as (y & Hy & _). exfalso.
    simpl in Hx, Hy, Hnone. destruct v; try discriminate.
    destruct (getMember field members); [|discriminate].
    injection Hx as ->. destruct x; try discriminate.
    destruct (getMember locale members0); discriminate.
  - by injection Hm as <-.
Qed.

Lemma jsonAt_app keys1 keys2 v x :
  jsonAt keys1 v = Some x → jsonAt (keys1 ++ keys2) v = jsonAt keys2 x.
Proof.
  revert v. induction keys1 as [|k rest IH]; intros v; simpl.
  - by intros [= ->].
  - destruct v; try discriminate.
    destruct (getMember k members); [apply IH|discriminate].
Qed.

Lemma string_ok v s : decode.string v = decode.Ok s → v = JString s.
Proof. destruct v; simpl; try discriminate. by intros [= ->]. Qed.

Lemma number_ok v n : decode.number v = decode.Ok n → v = JNumber n.
Proof. destruct v; simpl; try discriminate. by intros [= ->]. Qed.

Lemma at_string_ok keys v s :
  decode.at_ keys decode.string v = decode.Ok s →
  jsonAt keys v = Some (JString s).
Proof. intros (x & Hx & ->%string_ok)%at_ok. exact Hx. Qed.

Lemma at_number_ok keys v n :
  decode.at_ keys decode.number v = decode.Ok n →
  jsonAt keys v = Some (JNumber n).
Proof. intros (x & Hx & ->%number_ok)%at_ok. exact Hx. Qed.

Lemma at_jsonAt {A : Type} keys (d : Decoder A) v x :
  jsonAt keys v = Some x → decode.at_ keys d v = underPath keys (d x).
Proof.
  revert v. induction keys as [|k rest IH]; intros v; simpl.
  - by intros [= ->].
  - destruct v; try discriminate. unfold decode.field at 1.
    destruct (getMember k members) as [y|]; [|discriminate].
    intros Hy. by rewrite (IH _ Hy).
Qed.

Section DecodeMore.
Variable decodeFieldRef : Decoder FieldRef.

Lemma decodeEventFields_required locale fv f :
  decodeEventFields decodeFieldRef locale fv = decode.Ok f →
  decode.at_ ["name"; locale] decode.string fv = decode.Ok (name f)
  ∧ decode.at_ ["startTime"; locale] decode.string fv
    = decode.Ok (startTime f)
  ∧ decode.at_ ["endTime"; locale] decode.string fv = decode.Ok (endTime f)
  ∧ decode.at_ ["location"; locale] decodeLocation fv
    = decode.Ok (location f)
  ∧ decode.at_ ["locationName"; locale] decode.string fv
    = decode.Ok (locationName f)
  ∧ decode.at_ ["eventPriceLow"; locale] decode.number fv
    = decode.Ok (eventPriceLow f)
  ∧ decode.at_ ["eventPriceHigh"; locale] decode.number fv
    = decode.Ok (eventPriceHigh f)
  ∧ decode.at_ ["eventDescription"; locale] decode.string fv
    = decode.Ok (eventDescription f)
  ∧ maybeFieldWithDefault locale "recurrenceDates"
      (decode.array decode.string) [] fv
    = decode.Ok (recurrenceDates f).
Proof.
  unfold decodeEventFields. intros H.
  repeat match type of H with
    | _ ≫= _ = decode.Ok _ =>
        let a := fresh "a" in let Ha := fresh "Ha" in
        apply bind_ok in H as (a & Ha & H)
    end.
  injection H as <-. simpl. repeat split; assumption.
Qed.

Lemma decodeLocation_ok v l :
  decodeLocation v = decode.Ok l →
  jsonAt ["lat"] v = Some (JNumber (lat l))
  ∧ jsonAt ["lon"] v = Some (JNumber (lon l)).
Proof.
  unfold decodeLocation. intros (a & Ha & H)%bind_ok.
  apply bind_ok in H as (b & Hb & H). injection H as <-. simpl.
  split.
  - by apply (at_number_ok ["lat"]).
  - by apply (at_number_ok ["lon"]).
Qed.

(** X7. When [decodeEvent] succeeds, the content type of the record is
    [event], the event carries the locale it was decoded for, and its id,
    revision and required scalar fields are the values the record holds
    at [sys] and at the locale key of each field. *)
Theorem decodeEvent_sound (lc : string) (v : Json) (e : Event) :
  decodeEvent decodeFieldRef lc v = decode.Ok e →
  contentType e = "event"
  ∧ locale e = lc
  ∧ jsonAt ["sys"; "contentType"; "sys"; "id"] v = Some (JString "event")
  ∧ jsonAt ["sys"; "id"] v = Some (JString (id e))
  ∧ jsonAt ["sys"; "revision"] v = Some (JNumber (revision e))
  ∧ jsonAt ["fields"; "name"; lc] v = Some (JString (name (fields e)))
  ∧ jsonAt ["fields"; "startTime"; lc] v
    = Some (JString (startTime (fields e)))
  ∧ jsonAt ["fields"; "endTime"; lc] v
    = Some (JString (endTime (fields e)))
  ∧ jsonAt ["fields"; "location"; lc; "lat"] v
    = Some (JNumber (lat (location (fields e))))
  ∧ jsonAt ["fields"; "location"; lc; "lon"] v
    = Some (JNumber (lon (location (fields e))))
  ∧ jsonAt ["fields"; "locationName"; lc] v
    = Some (JString (locationName (fields e)))
  ∧ jsonAt ["fields"; "eventPriceLow"; lc] v
    = Some (JNumber (eventPriceLow (fields e)))
  ∧ jsonAt ["fields"; "eventPriceHigh"; lc] v
    = Some (JNumber (eventPriceHigh (fields e)))
  ∧ jsonAt ["fields"; "eventDescription"; lc] v
    = Some (JString (eventDescription (fields e))).
Proof.
  intros He.
  destruct (decodeEvent_fields _ _ _ _ He) as (fv & Hfv & Hf).
  apply decodeEventFields_required in Hf
    as (Hn & Hs & Hen & Hl & Hln & Hlo & Hhi & Hd & _).
  unfold decodeEvent in He.
  apply bind_ok in He as (ct & Hct & He).
  apply bind_ok in He as (i & Hi & He).
  apply bind_ok in He as (l & Hl' & He).
  apply bind_ok in He as (r & Hr & He).
  apply bind_ok in He as (f & _ & He).
  injection He as <-.
  cbn [contentType id locale revision fields] in *.
  injection Hl' as <-.
  apply at_ok in Hct as (x & Hx & [-> ->]%value_ok).
  apply at_ok in Hl as (lv & Hlv & [Hlat Hlon]%decodeLocation_ok).
  assert (∀ keys, jsonAt ("fields" :: keys) v = jsonAt keys fv) as Hin
    by (intros keys; apply (jsonAt_app ["fields"] keys v fv Hfv)).
  assert (∀ keys, jsonAt ("location" :: lc :: keys) fv = jsonAt keys lv)
    as Hloc by (intros keys; apply (jsonAt_app ["location"; lc] keys fv lv Hlv)).
  split; [done|]. split; [done|]. split; [done|].
  split; [by apply at_string_ok|]. split; [by apply at_number_ok|].
  rewrite !Hin, !Hloc.
  split; [by apply at_string_ok|]. split; [by apply at_string_ok|].
  split; [by apply at_string_ok|]. split; [done|]. split; [done|].
  split; [by apply at_string_ok|]. split; [by apply at_number_ok|].
  split; [by apply at_number_ok|]. by apply at_string_ok.
Qed.

(** X8. Decoding then expanding: an event decoded from a record whose
    [recurrenceDates] has no value for the locale has no recurrence dates
    and expands to itself alone. *)
Theorem decodeEvent_without_recurrence `{D : DateLib}
    (locale : string) (v : Json) (e : Event) :
  decodeEvent decodeFieldRef locale v = decode.Ok e →
  jsonAt ["fields"; "recurrenceDates"; locale] v = None →
  recurrenceDates (fields e) = [] ∧ expandRecurringEvents e = [e].
Proof.
  intros He Hnone.
  destruct (decodeEvent_fields _ _ _ _ He) as (fv & Hfv & Hf).
  apply decodeEventFields_required in Hf as (_ & _ & _ & _ & _ & _ & _ & _ & Hr).
  assert (recurrenceDates (fields e) = []) as Hnil.
  { apply (maybeFieldWithDefault_absent _ _ _ _ _ _ Hr).
    by rewrite <- (jsonAt_app ["fields"] _ v fv Hfv). }
  split; [done|]. by apply expandRecurringEvents_no_recurrence.
Qed.

(** X9. A record whose [sys.contentType.sys.id] is present and is not the
    string [event] is rejected with that path and the expected literal,
    whatever else the record holds: the content type is checked first. *)
Theorem decodeEvent_wrong_content_type (locale : string) (v x : Json) :
  jsonAt ["sys"; "contentType"; "sys"; "id"] v = Some x →
  x ≠ JString "event" →
  decodeEvent decodeFieldRef locale v
  = decode.Err
      {| decode.path := [decode.Key "sys"; decode.Key "contentType";
                         decode.Key "sys"; decode.Key "id"];
         decode.problem := decode.NotEqual "event" |}.
Proof.
  intros Hx Hne. unfold decodeEvent.
  rewrite (at_jsonAt _ _ _ _ Hx).
  assert (decode.value "event" x = decode.failure (decode.NotEqual "event"))
    as ->.
  { unfold decode.value. destruct x; try reflexivity.
    destruct (String.eqb s "event") eqn:E; [|reflexivity].
    apply String.eqb_eq in E. congruence. }
  reflexivity.
Qed.

(** X10. A record with a well-formed [sys] part whose [name] field has no
    value for the requested locale is rejected with [MissingField] at
    [fields.name.<locale>]. *)
Theorem decodeEvent_missing_locale (locale : string) (v : Json)
    (members : list (string * Json)) :
  forallb (fun check => check v) sysChecks = true →
  jsonAt ["fields"; "name"] v = Some (JObject members) →
  getMember locale members = None →
  decodeEvent decodeFieldRef locale v
  = decode.Err
      {| decode.path := [decode.Key "fields"; decode.Key "name";
                         decode.Key locale];
         decode.problem := decode.MissingField |}.
Proof.
  intros Hsys Hname Hloc. unfold decodeEvent.
  unfold sysChecks, succeeds in Hsys. cbn [forallb] in Hsys.
  rewrite !andb_true_iff in Hsys. destruct Hsys as (H1 & H2 & H3 & _).
  destruct (decode.at_ _ (decode.value _) v); [|discriminate].
  destruct (decode.at_ _ decode.string v); [|discriminate].
  destruct (decode.at_ _ decode.number v); [|discriminate].
  cbn [mbind decode.result_bind decode.succeed].
  simpl in Hname. destruct v; try discriminate.
  destruct (getMember "fields" members0) as [fv|] eqn:Hfv; [|discriminate].
  unfold decode.field at 1. rewrite Hfv.
  assert (jsonAt ["name"] fv = Some (JObject members)) as Hfvname.
  { simpl. destruct fv; try discriminate.
    destruct (getMember "name" members1); [exact Hname|discriminate]. }
  assert (decode.at_ ["name"; locale] decode.string fv
          = decode.Err {| decode.path := [decode.Key "name"; decode.Key locale];
                          decode.problem := decode.MissingField |}) as Hfail.
  { change (decode.at_ ["name"; locale] decode.string fv)
      with (decode.at_ ["name"] (decode.field locale decode.string) fv).
    rewrite (at_jsonAt ["name"] _ fv _ Hfvname).
    unfold decode.field. rewrite Hloc. reflexivity. }
  unfold decodeEventFields. rewrite Hfail. reflexivity.
Qed.
End DecodeMore.

(** *** The tag filter of the filter modal *)

(** X13. After a toggle the checkbox of the toggled value reads the
    opposite on the new [Set] and the same on the old one, and the checkbox
    of every other value reads the same on the new [Set]. *)
Theorem toggleTagFilter_flips_checkbox (h : Heap) (s : SetRef) (v : string)
    (members : gset string) :
  h !! s = Some members →
  ∃ r h',
    toggleTagFilter s v h = Some (r, h')
    ∧ setHas r v h' = Some (negb (bool_decide (v ∈ members)))
    ∧ setHas s v h' = Some (bool_decide (v ∈ members))
    ∧ ∀ w, w ≠ v → setHas r w h' = Some (bool_decide (w ∈ members)).
Proof.
  intros Hs. pose proof (toggleTagFilter_result h s v members Hs) as Hres.
  cbv zeta in Hres. set (r := fresh (dom h)) in *.
  assert (h !! r = None) as Hfresh by apply not_elem_of_dom, is_fresh.
  assert (r ≠ s) as Hrs.
  { intros Heq. assert (h !! s = None) by (rewrite <- Heq; exact Hfresh).
    congruence. }
  eexists r, _. split; [exact Hres|]. unfold setHas.
  rewrite lookup_insert_eq, lookup_insert_ne, Hs by done.
  split; [|split; [done|]].
  - f_equal. destruct (decide (v ∈ members)) as [Hin|Hout].
    + rewrite (bool_decide_eq_true_2 (v ∈ members)) by done.
      rewrite bool_decide_eq_false_2; [done|set_solver].
    + rewrite (bool_decide_eq_false_2 (v ∈ members)) by done.
      rewrite bool_decide_eq_true_2; [done|set_solver].
  - intros w Hw. f_equal. apply bool_decide_ext.
    destruct (decide (v ∈ members)); set_solver.
Qed.

Lemma clearStep_cleared h state tag :
  cleared h state → cleared h (clearStep state tag).
Proof.
  destruct state as [acc hcur]. intros (Hempty & Hinj & Hkeep).
  unfold clearStep, newSet. simpl in *.
  set (r := fresh (dom hcur)).
  assert (hcur !! r = None) as Hfresh by apply not_elem_of_dom, is_fresh.
  assert (∀ k r', acc !! k = Some r' → r' ≠ r) as Hother.
  { intros k r' Hk ->. apply Hempty in Hk as [Hk _]. congruence. }
  split; [|split]; simpl.
  - intros k r'. destruct (decide (tag = k)) as [->|Hne].
    + rewrite lookup_insert_eq. intros [= <-].
      rewrite lookup_insert_eq. split; [done|].
      destruct (h !! r) as [m|] eqn:E; [|done].
      apply Hkeep in E. congruence.
    + rewrite lookup_insert_ne by done. intros Hk.
      rewrite lookup_insert_ne by (intros Heq; by apply (Hother k r')).
      by apply Hempty in Hk.
  - intros k1 k2 r'.
    destruct (decide (tag = k1)) as [<-|Hne1];
      destruct (decide (tag = k2)) as [<-|Hne2];
      rewrite ?lookup_insert_eq, ?lookup_insert_ne by done.
    + done.
    + intros [= <-] Hk. by apply Hother in Hk.
    + intros Hk [= <-]. by apply Hother in Hk.
    + apply Hinj.
  - intros l members Hl. rewrite lookup_insert_ne; [by apply Hkeep|].
    intros <-. apply Hkeep in Hl. congruence.
Qed.

Lemma fold_clearStep_cleared h keys state :
  cleared h state → cleared h (fold_left clearStep keys state).
Proof.
  revert state. induction keys as [|k rest IH]; intros state Hc; simpl;
    [done|]. by apply IH, clearStep_cleared.
Qed.

Lemma fold_clearStep_keys keys state k :
  is_Some ((fold_left clearStep keys state).1 !! k)
  ↔ k ∈ keys ∨ is_Some (state.1 !! k).
Proof.
  revert state. induction keys as [|a rest IH]; intros state; simpl.
  - rewrite elem_of_nil. tauto.
  - rewrite IH, elem_of_cons. destruct state as [acc hcur].
    unfold clearStep, newSet. simpl.
    destruct (decide (a = k)) as [->|Hne].
    + rewrite lookup_insert_eq. split; [auto|]. intros _. right. eauto.
    + rewrite lookup_insert_ne by done. split; [tauto|].
      intros [[?|?]|?]; [congruence|tauto..].
Qed.

(** X12. The object [clearTagFilters] hands to [onChange] has exactly the
    keys of [tags]; each maps to a new empty [Set], no two keys share a
    [Set], and every [Set] that was live before is unchanged. *)
Theorem clearTagFilters_empties (tagKeys : list string) (h : Heap) :
  let '(filters, h') := clearTagFilters tagKeys h in
  (∀ k, is_Some (filters !! k) ↔ k ∈ tagKeys)
  ∧ (∀ k r, filters !! k = Some r → h' !! r = Some ∅ ∧ h !! r = None)
  ∧ (∀ k1 k2 r, filters !! k1 = Some r → filters !! k2 = Some r → k1 = k2)
  ∧ (∀ l members, h !! l = Some members → h' !! l = Some members).
Proof.
  pose proof (fold_clearStep_cleared h tagKeys (∅, h)) as Hc.
  pose proof (fold_clearStep_keys tagKeys (∅, h)) as Hk.
  unfold clearTagFilters. destruct (fold_left clearStep tagKeys (∅, h))
    as [filters h'].
  simpl in *. split.
  - intros k. rewrite Hk, lookup_empty. split; [|tauto].
    intros [?|[? ?]]; [done|discriminate].
  - apply Hc. split; [|split]; simpl.
    + intros k r. by rewrite lookup_empty.
    + intros k1 k2 r. by rewrite lookup_empty.
    + done.
Qed.

(** *** [SegmentedControl] *)

Lemma SegmentedControl_lookup selectedIndex values (i : nat) b :
  SegmentedControl selectedIndex values !! i = Some b →
  ∃ value, values !! i = Some value
    ∧ onPress b = Z.of_nat i
    ∧ text b = value
    ∧ accessibilityTraits b
      = (if isSelected (Z.of_nat i) selectedIndex then ["button"; "selected"]
         else ["button"])
    ∧ accessibilityComponentType b
      = (if isSelected (Z.of_nat i) selectedIndex then "radiobutton_checked"
         else "radiobutton_unchecked")
    ∧ style b
      = [ Some button;
          when (isSelected (Z.of_nat i) selectedIndex) buttonSelected;
          when (Z.eqb (Z.of_nat i) 0) buttonBorderStart;
          when (Z.eqb (Z.of_nat i) (Z.of_nat (length values) - 1))
            buttonBorderEnd;
          when (negb (isSelected (Z.of_nat i - 1) selectedIndex))
            borderButtonLeft ].
Proof.
  unfold SegmentedControl. rewrite list_lookup_imap.
  destruct (values !! i) as [value|]; [|discriminate].
  simpl. intros [= <-]. exists value. simpl. repeat split.
Qed.

Lemma isSelected_true index selectedIndex :
  isSelected index selectedIndex = true ↔ selectedIndex = Some index.
Proof.
  unfold isSelected. destruct selectedIndex as [s|]; [|split; discriminate].
  rewrite Z.eqb_eq. split; [by intros ->|by intros [= ->]].
Qed.

(** X14. [SegmentedControl] renders one button per value, in order; the
    button at position [i] reports [i] when pressed and is marked selected
    (trait, component type and style) exactly when [selectedIndex] is [i],
    so at most one button is marked selected. *)
Theorem SegmentedControl_selection (selectedIndex : option Z)
    (values : list string) :
  length (SegmentedControl selectedIndex values) = length values
  ∧ (∀ (i : nat) b, SegmentedControl selectedIndex values !! i = Some b →
       onPress b = Z.of_nat i
       ∧ values !! i = Some (text b)
       ∧ ("selected" ∈ accessibilityTraits b
          ↔ selectedIndex = Some (Z.of_nat i))
       ∧ (accessibilityComponentType b = "radiobutton_checked"
          ↔ selectedIndex = Some (Z.of_nat i))
       ∧ (Some buttonSelected ∈ style b
          ↔ selectedIndex = Some (Z.of_nat i)))
  ∧ (∀ (i j : nat) bi bj,
       SegmentedControl selectedIndex values !! i = Some bi →
       SegmentedControl selectedIndex values !! j = Some bj →
       "selected" ∈ accessibilityTraits bi →
       "selected" ∈ accessibilityTraits bj → i = j).
Proof.
  assert (∀ (i : nat) b, SegmentedControl selectedIndex values !! i = Some b →
       onPress b = Z.of_nat i
       ∧ values !! i = Some (text b)
       ∧ ("selected" ∈ accessibilityTraits b
          ↔ selectedIndex = Some (Z.of_nat i))
       ∧ (accessibilityComponentType b = "radiobutton_checked"
          ↔ selectedIndex = Some (Z.of_nat i))
       ∧ (Some buttonSelected ∈ style b
          ↔ selectedIndex = Some (Z.of_nat i))) as Hbutton.
  { intros i b (value & Hv & Hp & Ht & Htr & Hct & Hst)%SegmentedControl_lookup.
    split; [done|]. split; [by rewrite Ht|].
    rewrite Htr, Hct, Hst, <- isSelected_true.
    destruct (isSelected (Z.of_nat i) selectedIndex); simpl.
    - split; [|split]; split; try done.
      + intros _. apply list_elem_of_In. simpl. tauto.
      + intros _. apply list_elem_of_In. simpl. tauto.
    - split; [|split]; split; try done.
      + intros Hin%list_elem_of_In. simpl in Hin.
        destruct Hin as [?|[]]; discriminate.
      + intros Hin%list_elem_of_In. simpl in Hin. unfold when in Hin.
        repeat match type of Hin with
          | context [if ?c then _ else _] => destruct c
          end; simpl in Hin; intuition discriminate. }
  split; [apply length_imap|]. split; [exact Hbutton|].
  intros i j bi bj Hi Hj Hsi Hsj.
  apply Hbutton in Hi as (_ & _ & Hi & _). apply Hbutton in Hj as (_ & _ & Hj & _).
  apply Hi in Hsi. apply Hj in Hsj. rewrite Hsi in Hsj.
  injection Hsj as Heq. lia.
Qed.

(** X15. Only the first button has the start border, only the last one the
    end border, and every button draws its left border except the one
    that follows the selected button. *)
Theorem SegmentedControl_borders (selectedIndex : option Z)
    (values : list string) (i : nat) (b : Touchable) :
  SegmentedControl selectedIndex values !! i = Some b →
  (Some buttonBorderStart ∈ style b ↔ i = 0%nat)
  ∧ (Some buttonBorderEnd ∈ style b ↔ S i = length values)
  ∧ (Some borderButtonLeft ∈ style b
     ↔ selectedIndex ≠ Some (Z.of_nat i - 1)%Z).
Proof.
  intros (value & Hv & _ & _ & _ & _ & Hst)%SegmentedControl_lookup.
  rewrite Hst. clear Hst.
  assert (∀ (c1 c2 c3 c4 : bool) (n : StyleName),
    Some n ∈ [Some button; when c1 buttonSelected; when c2 buttonBorderStart;
              when c3 buttonBorderEnd; when c4 borderButtonLeft]
    ↔ n = button ∨ (c1 = true ∧ n = buttonSelected)
      ∨ (c2 = true ∧ n = buttonBorderStart)
      ∨ (c3 = true ∧ n = buttonBorderEnd)
      ∨ (c4 = true ∧ n = borderButtonLeft)) as Hin.
  { intros c1 c2 c3 c4 n. rewrite list_elem_of_In.
    destruct c1, c2, c3, c4, n; simpl; intuition congruence. }
  rewrite !Hin. split; [|split].
  - split.
    + intros [?|[[_ ?]|[[Hc _]|[[_ ?]|[_ ?]]]]]; try discriminate.
      apply Z.eqb_eq in Hc. lia.
    + intros ->. right. right. left. done.
  - split.
    + intros [?|[[_ ?]|[[_ ?]|[[Hc _]|[_ ?]]]]]; try discriminate.
      apply Z.eqb_eq in Hc. lia.
    + intros Hlen. right. right. right. left. split; [|done].
      apply Z.eqb_eq. lia.
  - rewrite <- isSelected_true. split.
    + intros [?|[[_ ?]|[[_ ?]|[[_ ?]|[Hc _]]]]]; try discriminate.
      apply negb_true_iff in Hc. congruence.
    + intros Hc. right. right. right. right. split; [|done].
      apply negb_true_iff. by destruct (isSelected _ _).
Qed.

Lemma recurrenceDateToStartTime_components_witness :
  recurrenceDateToStartTime "2018-01-09T11:00+00:00" ("13" ++ "/" ++ "1" ++ "/" ++ "18")
  = formatDate
      (setDate "2018-01-09T11:00+00:00"
         {| year := Some "18"; month := Some "1"; day := Some "13" |})
      FORMAT_CONTENTFUL_ISO.
Proof.
  apply (recurrenceDateToStartTime_components
           "2018-01-09T11:00+00:00" "13" "1" "18"); reflexivity.
Defined.

Lemma recurrenceDateToStartTime_missing_components_witness :
  recurrenceDateToStartTime "2018-01-09T11:00+00:00" "13"
  = formatDate
      (setDate "2018-01-09T11:00+00:00"
         {| year := None; month := None; day := Some "13" |})
      FORMAT_CONTENTFUL_ISO
  ∧ recurrenceDateToStartTime "2018-01-09T11:00+00:00" ("13" ++ "/" ++ "1")
    = formatDate
        (setDate "2018-01-09T11:00+00:00"
           {| year := None; month := Some "1"; day := Some "13" |})
        FORMAT_CONTENTFUL_ISO.
Proof.
  apply (recurrenceDateToStartTime_missing_components
           "2018-01-09T11:00+00:00" "13" "1"); reflexivity.
Defined.

Lemma recurrenceDateToStartTime_extra_components_witness :
  recurrenceDateToStartTime "2018-01-09T11:00+00:00"
    ("13" ++ "/" ++ "1" ++ "/" ++ "18" ++ "/" ++ "x/y")
  = recurrenceDateToStartTime "2018-01-09T11:00+00:00"
      ("13" ++ "/" ++ "1" ++ "/" ++ "18").
Proof.
  apply (recurrenceDateToStartTime_extra_components
           "2018-01-09T11:00+00:00" "13" "1" "18" "x/y"); reflexivity.
Defined.

Lemma maybeFieldWithDefault_total_witness :
  maybeFieldWithDefault "en-GB" "eventCategories"
    (decode.array decode.string) []
    (JObject [("eventCategories", sampleCategories)])
  = decode.Ok (match decode.field "en-GB" (decode.array decode.string)
                       sampleCategories with
               | decode.Ok a => a
               | decode.Err _ => []
               end)
  ∧ maybeField "en-GB" "eventCategories" (decode.array decode.string)
      (JObject [("eventCategories", sampleCategories)])
    = decode.Ok (match decode.field "en-GB" (decode.array decode.string)
                         sampleCategories with
                 | decode.Ok a => Some a
                 | decode.Err _ => None
                 end)
  ∧ (jsonAt ["en-GB"] sampleCategories = None →
     maybeFieldWithDefault "en-GB" "eventCategories"
       (decode.array decode.string) []
       (JObject [("eventCategories", sampleCategories)])
     = decode.Ok []).
Proof.
  apply (maybeFieldWithDefault_total "en-GB" "eventCategories"
           (decode.array decode.string) []
           [("eventCategories", sampleCategories)] sampleCategories).
  reflexivity.
Defined.

Lemma decodeEvent_sound_witness :
  contentType sampleEvent = "event"
  ∧ locale sampleEvent = "en-GB"
  ∧ jsonAt ["sys"; "contentType"; "sys"; "id"] sampleEntry
    = Some (JString "event")
  ∧ jsonAt ["sys"; "id"] sampleEntry = Some (JString (id sampleEvent))
  ∧ jsonAt ["sys"; "revision"] sampleEntry
    = Some (JNumber (revision sampleEvent))
  ∧ jsonAt ["fields"; "name"; "en-GB"] sampleEntry
    = Some (JString (name (fields sampleEvent)))
  ∧ jsonAt ["fields"; "startTime"; "en-GB"] sampleEntry
    = Some (JString (startTime (fields sampleEvent)))
  ∧ jsonAt ["fields"; "endTime"; "en-GB"] sampleEntry
    = Some (JString (endTime (fields sampleEvent)))
  ∧ jsonAt ["fields"; "location"; "en-GB"; "lat"] sampleEntry
    = Some (JNumber (lat (location (fields sampleEvent))))
  ∧ jsonAt ["fields"; "location"; "en-GB"; "lon"] sampleEntry
    = Some (JNumber (lon (location (fields sampleEvent))))
  ∧ jsonAt ["fields"; "locationName"; "en-GB"] sampleEntry
    = Some (JString (locationName (fields sampleEvent)))
  ∧ jsonAt ["fields"; "eventPriceLow"; "en-GB"] sampleEntry
    = Some (JNumber (eventPriceLow (fields sampleEvent)))
  ∧ jsonAt ["fields"; "eventPriceHigh"; "en-GB"] sampleEntry
    = Some (JNumber (eventPriceHigh (fields sampleEvent)))
  ∧ jsonAt ["fields"; "eventDescription"; "en-GB"] sampleEntry
    = Some (JString (eventDescription (fields sampleEvent))).
Proof.
  apply (decodeEvent_sound decodeFieldRefModel "en-GB" sampleEntry sampleEvent).
  vm_compute. reflexivity.
Defined.

Lemma decodeEvent_without_recurrence_witness :
  recurrenceDates (fields singleEvent) = []
  ∧ expandRecurringEvents singleEvent = [singleEvent].
Proof.
  apply (decodeEvent_without_recurrence decodeFieldRefModel "en-GB"
           singleEntry singleEvent); vm_compute; reflexivity.
Defined.

Lemma decodeEvent_wrong_content_type_witness :
  decodeEvent decodeFieldRefModel "en-GB" pageEntry
  = decode.Err
      {| decode.path := [decode.Key "sys"; decode.Key "contentType";
                         decode.Key "sys"; decode.Key "id"];
         decode.problem := decode.NotEqual "event" |}.
Proof.
  apply (decodeEvent_wrong_content_type decodeFieldRefModel "en-GB"
           pageEntry (JString "page")); [reflexivity|discriminate].
Defined.

Lemma decodeEvent_missing_locale_witness :
  decodeEvent decodeFieldRefModel "fr" sampleEntry
  = decode.Err
      {| decode.path := [decode.Key "fields"; decode.Key "name";
                         decode.Key "fr"];
         decode.problem := decode.MissingField |}.
Proof.
  apply (decodeEvent_missing_locale decodeFieldRefModel "fr" sampleEntry
           [("en-GB", JString "Pride in the Park")]); reflexivity.
Defined.

Lemma toggleTagFilter_flips_checkbox_witness :
  ∃ r h',
    toggleTagFilter 1%positive "Music" sampleHeap = Some (r, h')
    ∧ setHas r "Music" h'
      = Some (negb (bool_decide ("Music" ∈ ({[ "Music"; "Health" ]} : gset string))))
    ∧ setHas 1%positive "Music" h'
      = Some (bool_decide ("Music" ∈ ({[ "Music"; "Health" ]} : gset string)))
    ∧ ∀ w, w ≠ "Music" →
        setHas r w h'
        = Some (bool_decide (w ∈ ({[ "Music"; "Health" ]} : gset string))).
Proof.
  apply (toggleTagFilter_flips_checkbox sampleHeap 1%positive "Music").
  reflexivity.
Defined.

Lemma SegmentedControl_borders_witness :
  ∃ b, SegmentedControl (Some 0%Z) ["List"; "Map"] !! 1%nat = Some b
    ∧ (Some buttonBorderStart ∈ style b ↔ 1%nat = 0%nat)
    ∧ (Some buttonBorderEnd ∈ style b ↔ 2%nat = length ["List"; "Map"])
    ∧ (Some borderButtonLeft ∈ style b ↔ Some 0%Z ≠ Some (Z.of_nat 1 - 1)%Z).
Proof.
  eexists. split; [reflexivity|].
  apply (SegmentedControl_borders (Some 0%Z) ["List"; "Map"] 1%nat).
  reflexivity.
Defined.

(** *** [decodeEvent] against the raw record *)

Lemma isCategory_names (l : list string) :
  Forall (.∈ eventCategoryNames) l → forallb isCategory (List.map JString l) = true.
Proof.
  induction 1 as [|s l Hs _ IH]; simpl; [done|].
  rewrite IH, andb_true_r. by apply bool_decide_eq_true_2.
Qed.

Section DecodeRequired.
Variable decodeFieldRef : Decoder FieldRef.

Lemma decodeEventFields_pictures locale fv f :
  decodeEventFields decodeFieldRef locale fv = decode.Ok f →
  decode.at_ ["individualEventPicture"; locale] decodeFieldRef fv
  = decode.Ok (individualEventPicture f)
  ∧ decode.at_ ["eventsListPicture"; locale] decodeFieldRef fv
    = decode.Ok (eventsListPicture f).
Proof.
  unfold decodeEventFields. intros H.
  repeat match type of H with
    | _ ≫= _ = decode.Ok _ =>
        let a := fresh "a" in let Ha := fresh "Ha" in
        apply bind_ok in H as (a & Ha & H)
    end.
  injection H as <-. simpl. split; assumption.
Qed.

(** What a successful decode says of the record: every required value
    is there and is of the expected kind. *)
Lemma decodeEvent_required_values locale v e :
  decodeEvent decodeFieldRef locale v = decode.Ok e →
  ∀ path expected, (path, expected) ∈ requiredValues locale →
    conforms (jsonAt path v) expected = true.
Proof.
  intros He.
  destruct (decodeEvent_fields _ _ _ _ He) as (fv & Hfv & Hf).
  pose proof (decodeEventFields_categories _ _ _ _ Hf) as Hc.
  pose proof (decodeEventFields_pictures _ _ _ Hf) as [Hp1 Hp2].
  apply decodeEventFields_required in Hf
    as (Hn & Hs & Hen & Hl & Hln & Hlo & Hhi & Hd & _).
  unfold decodeEvent in He.
  apply bind_ok in He as (ct & Hct & He).
  apply bind_ok in He as (i & Hi & He).
  apply bind_ok in He as (l & _ & He).
  apply bind_ok in He as (r & Hr & _).
  apply at_ok in Hct as (x & Hx & [-> _]%value_ok).
  apply at_ok in Hl as (lv & Hlv & [Hlat Hlon]%decodeLocation_ok).
  apply at_ok in Hc as (cv & Hcv & Hcat).
  apply at_ok in Hp1 as (p1 & Hp1 & _). apply at_ok in Hp2 as (p2 & Hp2 & _).
  assert (∀ keys, jsonAt ("fields" :: keys) v = jsonAt keys fv) as Hin
    by (intros keys; apply (jsonAt_app ["fields"] keys v fv Hfv)).
  assert (∀ keys, jsonAt ("location" :: locale :: keys) fv = jsonAt keys lv)
    as Hloc
    by (intros keys; apply (jsonAt_app ["location"; locale] keys fv lv Hlv)).
  intros path expected Hmem. unfold requiredValues in Hmem.
  repeat (apply elem_of_cons in Hmem as [[= -> ->]|Hmem];
          [rewrite ?Hin, ?Hloc|]).
  - by rewrite Hx.
  - by rewrite (at_string_ok _ _ _ Hi).
  - by rewrite (at_number_ok _ _ _ Hr).
  - by rewrite (at_string_ok _ _ _ Hn).
  - rewrite Hcv. destruct cv; try discriminate.
    apply categories_ok in Hcat as [-> Hall]. simpl.
    by apply isCategory_names.
  - by rewrite (at_string_ok _ _ _ Hs).
  - by rewrite (at_string_ok _ _ _ Hen).
  - by rewrite Hlat.
  - by rewrite Hlon.
  - by rewrite (at_string_ok _ _ _ Hln).
  - by rewrite (at_number_ok _ _ _ Hlo).
  - by rewrite (at_number_ok _ _ _ Hhi).
  - by rewrite (at_string_ok _ _ _ Hd).
  - rewrite Hp1. by destruct p1.
  - rewrite Hp2. by destruct p2.
  - by apply elem_of_nil in Hmem.
Qed.

(** C8. [decodeEvent] is all-or-nothing.  Whenever a required value of
    the record (the content type, [sys.id], [sys.revision] or a required
    field at the locale) is missing or is not of the expected kind, the
    decode fails, with an error that carries a non-empty path; a decode
    that succeeds found every required value.  It succeeds exactly when
    every key of its two shapes decodes, and it fails whenever
    [sys.contentType.sys.id] is not the string [event]. *)
Theorem decodeEvent_all_or_nothing (locale : string) (v : Json) :
  (∀ path expected,
     (path, expected) ∈ requiredValues locale →
     conforms (jsonAt path v) expected = false →
     ∃ err, decodeEvent decodeFieldRef locale v = decode.Err err
            ∧ decode.path err ≠ [])
  ∧ (∀ e, decodeEvent decodeFieldRef locale v = decode.Ok e →
          ∀ path expected, (path, expected) ∈ requiredValues locale →
            conforms (jsonAt path v) expected = true)
  ∧ ((∃ e, decodeEvent decodeFieldRef locale v = decode.Ok e)
     ↔ forallb (fun check => check v) sysChecks = true
       ∧ ∃ fv, jsonAt ["fields"] v = Some fv
               ∧ forallb (fun check => check fv)
                   (fieldChecks decodeFieldRef locale) = true)
  ∧ (∀ err, decodeEvent decodeFieldRef locale v = decode.Err err →
            decode.path err ≠ [])
  ∧ (jsonAt ["sys"; "contentType"; "sys"; "id"] v ≠ Some (JString "event") →
     ∃ err, decodeEvent decodeFieldRef locale v = decode.Err err).
Proof.
  split; [|split; [apply decodeEvent_required_values
                  |apply decodeEvent_shapes_all_or_nothing]].
  intros path expected Hmem Hbad.
  destruct (decodeEvent decodeFieldRef locale v) as [e|err] eqn:E.
  - rewrite (decodeEvent_required_values _ _ _ E _ _ Hmem) in Hbad.
    discriminate.
  - exists err. split; [done|]. by eapply decodeEvent_error_path.
Qed.
End DecodeRequired.

Lemma decodeEvent_all_or_nothing_witness :
  ∃ err, decodeEvent decodeFieldRefModel "en-GB" nowhereEntry = decode.Err err
         ∧ decode.path err ≠ [].
Proof.
  apply (proj1 (decodeEvent_all_or_nothing decodeFieldRefModel "en-GB"
                  nowhereEntry)
           ["fields"; "location"; "en-GB"; "lat"] ExpectNumber).
  - apply list_elem_of_In. vm_compute. tauto.
  - reflexivity.
Defined.
